(** * Rellume register file: facets, value maps, flag cache

    A shallow embedding of [src/llregfile-internal.h]: the [Facet::Value]
    enumeration, the [ValueMap] template with its [LookupTable], the
    [RegFile::FlagCache] structure and the [RegFile] class, together with
    the properties the specification states about them. *)

From Stdlib Require Import NArith Lia.
From stdpp Require Import base decidable option list strings.

Set Default Proof Using "Type".

(** ** Common vocabulary *)

(** An [llvm::Value*]: the address of a value owned by the backend.  The
    register file only stores, compares and forwards such pointers. *)
Definition LLVMValue : Type := N.

(** [nullptr], the content of an empty slot. *)
Definition nullptr : LLVMValue := 0%N.

(** An [llvm::BasicBlock*]. *)
Definition BasicBlock : Type := N.

(** What a call can end in.  [AssertFail] is a failed [assert] (the process
    aborts); [OutOfBounds] is an array access outside the array, which the
    source leaves undefined; [ConversionFailure] is the backend refusing a
    conversion between two facets. *)
Inductive outcome (A : Type) : Type :=
  | Ok (a : A)
  | AssertFail
  | OutOfBounds
  | ConversionFailure.
Arguments Ok {A} a.
Arguments AssertFail {A}.
Arguments OutOfBounds {A}.
Arguments ConversionFailure {A}.

#[global] Instance outcome_ret : MRet outcome := fun A a => Ok a.
#[global] Instance outcome_bind : MBind outcome := fun A B k m =>
  match m with
  | Ok a => k a
  | AssertFail => AssertFail
  | OutOfBounds => OutOfBounds
  | ConversionFailure => ConversionFailure
  end.

(** Reading [a[i]] from a C array held as a list. *)
Definition load {A : Type} (a : list A) (i : nat) : outcome A :=
  match a !! i with
  | Some x => Ok x
  | None => OutOfBounds
  end.

(** Writing [a[i] = x] into a C array held as a list. *)
Definition store {A : Type} (a : list A) (i : nat) (x : A) : outcome (list A) :=
  if decide (i < length a) then Ok (<[i := x]> a) else OutOfBounds.

(** ** The flag identifiers (lines 40-66) *)

Definition RFLAG_ZF : nat := 0.
Definition RFLAG_SF : nat := 1.
Definition RFLAG_PF : nat := 2.
Definition RFLAG_CF : nat := 3.
Definition RFLAG_OF : nat := 4.
Definition RFLAG_AF : nat := 5.
Definition RFLAG_Max : nat := 6.

(** ** [class Facet] (lines 68-106) *)

Module Facet.

(** Every enumerator name of [enum Value].  [I256] is declared only when
    the vector registers are at least 256 bits wide; [IVEC] is an alias
    and is given below. *)
Inductive Value : Type :=
  | I64
  | I32 | I16 | I8 | I8H | PTR
  | I128
  | V1I8 | V2I8 | V4I8 | V8I8 | V16I8
  | V1I16 | V2I16 | V4I16 | V8I16
  | V1I32 | V2I32 | V4I32
  | V1I64 | V2I64
  | V1F32 | V2F32 | V4F32
  | V1F64 | V2F64
  | F32 | F64
  | I256
  | I | VI8 | VI16 | VI32 | VI64 | VF32 | VF64
  | MAX.

#[global] Instance Value_eq_dec : EqDecision Value.
Proof. solve_decision. Defined.

(** Position of [v] in [l]; the length of [l] when [v] is not there. *)
Fixpoint index_of (v : Value) (l : list Value) : nat :=
  match l with
  | [] => 0
  | x :: l' => if decide (x = v) then 0 else S (index_of v l')
  end.

Section Enum.
(** The macro [LL_VECTOR_REGISTER_SIZE] of [llcommon-internal.h]. *)
Variable LL_VECTOR_REGISTER_SIZE : N.

(** The enumerators in declaration order, after the preprocessor. *)
Definition enumerators : list Value :=
  [ I64;
    I32; I16; I8; I8H; PTR;
    I128;
    V1I8; V2I8; V4I8; V8I8; V16I8;
    V1I16; V2I16; V4I16; V8I16;
    V1I32; V2I32; V4I32;
    V1I64; V2I64;
    V1F32; V2F32; V4F32;
    V1F64; V2F64;
    F32; F64 ]
  ++ (if (256 <=? LL_VECTOR_REGISTER_SIZE)%N then [I256] else [])
  ++ [ I; VI8; VI16; VI32; VI64; VF32; VF64;
       MAX ].

(** [static_cast<int>(v)]: no enumerator has an initialiser, so each
    one's value is its position.  A name that is not declared gets a
    value beyond [MAX]. *)
Definition to_int (v : Value) : nat := index_of v enumerators.

(** [IVEC], declared for 128 and 256 bit vector registers only. *)
Definition IVEC : option Value :=
  if (LL_VECTOR_REGISTER_SIZE =? 128)%N then Some I128
  else if (LL_VECTOR_REGISTER_SIZE =? 256)%N then Some I256
  else None.
End Enum.

(** The pseudo-facets (line 87). *)
Definition pseudo : list Value := [I; VI8; VI16; VI32; VI64; VF32; VF64].

End Facet.

(** ** [ValueMap::LookupTable] (lines 110-121) *)

Module LookupTable.
Section Def.
Context {T : Type}.
(** [static_cast<int>] on [T], and the value-initialised [T]. *)
Variable to_int : T -> nat.
Variable zero : T.

(** [T f[N]; unsigned b[M];] *)
Record t : Type := mk { f : list T; b : list nat }.

(** The body of the range-for loop, from counter [i] on:
    [f[i] = elem; b[static_cast<int>(elem)] = 1 + i++;].  A store
    outside an array is undefined in the source; here it leaves the
    array as it is, and the theorems below assume every store is in
    range.  The [int] counter and the [unsigned] entries never exceed the
    length of the initialiser list, so they are natural numbers here. *)
Fixpoint fill (il : list T) (i : nat) (tb : t) : t :=
  match il with
  | [] => tb
  | elem :: il' =>
      fill il' (S i)
        {| f := <[i := elem]> (f tb);
           b := <[to_int elem := 1 + i]> (b tb) |}
  end.

(** The constructor: [f()] and [b()] zero both arrays first. *)
Definition ctor (N M : nat) (il : list T) : t :=
  fill il 0 {| f := replicate N zero; b := replicate M 0 |}.
End Def.
Arguments t : clear implicits.
End LookupTable.

(** ** [template<Facet::Value... E> class ValueMap] (lines 108-139) *)

Module ValueMap.
Section Def.
Variable LL_VECTOR_REGISTER_SIZE : N.
(** The parameter pack [E...]. *)
Variable E : list Facet.Value.

Definition static_cast_int : Facet.Value -> nat :=
  Facet.to_int LL_VECTOR_REGISTER_SIZE.

(** [static const LookupTable<Facet::Value, sizeof...(E), Facet::MAX> table]
    initialised with [table({E...})]. *)
Definition table : LookupTable.t Facet.Value :=
  LookupTable.ctor static_cast_int Facet.I64
    (length E) (static_cast_int Facet.MAX) E.

(** [llvm::Value* values[sizeof...(E)]] *)
Record t : Type := mk { values : list LLVMValue }.

(** [at(v)], as the position of the slot the returned reference
    designates.  The [assert] is compiled in: a false condition aborts. *)
Definition at_ (v : Facet.Value) : outcome nat :=
  k ← load (LookupTable.b table) (static_cast_int v);
  match k with
  | 0 => AssertFail
  | S i => Ok i
  end.

(** Reading through the reference [at(v)]. *)
Definition at_get (vm : t) (v : Facet.Value) : outcome LLVMValue :=
  i ← at_ v; load (values vm) i.

(** Writing through the reference: [at(v) = x]. *)
Definition at_set (vm : t) (v : Facet.Value) (x : LLVMValue) : outcome t :=
  i ← at_ v;
  a ← store (values vm) i x;
  Ok {| values := a |}.

(** [facets()] *)
Definition facets : list Facet.Value := LookupTable.f table.

(** [clear()]: [std::fill_n(values, sizeof...(E), nullptr)] *)
Definition clear (vm : t) : t :=
  {| values := replicate (length E) nullptr |}.

(** Every element of the pack is an enumerator below [MAX]: each store
    of the table's constructor is inside the backward array. *)
Definition in_range : Prop :=
  Forall (fun e => static_cast_int e < static_cast_int Facet.MAX) E.
End Def.
End ValueMap.

(** [ValueMapGp] (line 141) *)
Definition ValueMapGp : list Facet.Value :=
  [Facet.I64; Facet.I32; Facet.I16; Facet.I8; Facet.I8H; Facet.PTR].

(** [ValueMapSse] (lines 142-152) *)
Definition ValueMapSse (LL_VECTOR_REGISTER_SIZE : N) : list Facet.Value :=
  [Facet.I128]
  ++ (if (256 <=? LL_VECTOR_REGISTER_SIZE)%N then [Facet.I256] else [])
  ++ [ Facet.I8; Facet.V1I8; Facet.V2I8; Facet.V4I8; Facet.V8I8; Facet.V16I8;
       Facet.I16; Facet.V1I16; Facet.V2I16; Facet.V4I16; Facet.V8I16;
       Facet.I32; Facet.V1I32; Facet.V2I32; Facet.V4I32;
       Facet.I64; Facet.V1I64; Facet.V2I64;
       Facet.F32; Facet.V1F32; Facet.V2F32; Facet.V4F32;
       Facet.F64; Facet.V1F64; Facet.V2F64 ].

(** The two configurations of the preprocessor: only whether the vector
    registers reach 256 bits matters to the declarations above. *)
Definition norm (vsz : N) : N := if (256 <=? vsz)%N then 256%N else 128%N.

(** The value a call returns, without the state it leaves. *)
Definition returned {A S : Type} (r : outcome (A * S)) : outcome A :=
  match r with
  | Ok (a, _) => Ok a
  | AssertFail => AssertFail
  | OutOfBounds => OutOfBounds
  | ConversionFailure => ConversionFailure
  end.

(** ** [struct RegFile::FlagCache] (lines 157-166) *)

Module FlagCache.
Record t : Type := mk { valid : bool; lhs : LLVMValue; rhs : LLVMValue }.

(** [FlagCache() : valid(false) {}].  The constructor runs on the storage
    of the object; [lhs] and [rhs] have no initialiser and keep whatever
    that storage holds. *)
Definition ctor (storage : t) : t :=
  {| valid := false; lhs := lhs storage; rhs := rhs storage |}.

(** [update(op1, op2)]: [lhs = op1; rhs = op2; valid = true;] *)
Definition update (fc : t) (op1 op2 : LLVMValue) : t :=
  {| lhs := op1; rhs := op2; valid := true |}.

(** What a client holding a constructed cache (a [FlagCache&]) can do to
    it.  The struct declares one member function, [update]; its three data
    members are public, so each can be assigned; and it has the implicit
    copy assignment [fc = other]. *)
Inductive op : Type :=
  | Update (op1 op2 : LLVMValue)   (* fc.update(op1, op2) *)
  | SetValid (v : bool)            (* fc.valid = v *)
  | SetLhs (x : LLVMValue)         (* fc.lhs = x *)
  | SetRhs (x : LLVMValue)         (* fc.rhs = x *)
  | Assign (other : t).            (* fc = other *)

Definition apply (fc : t) (o : op) : t :=
  match o with
  | Update op1 op2 => update fc op1 op2
  | SetValid v => {| valid := v; lhs := lhs fc; rhs := rhs fc |}
  | SetLhs x => {| valid := valid fc; lhs := x; rhs := rhs fc |}
  | SetRhs x => {| valid := valid fc; lhs := lhs fc; rhs := x |}
  | Assign other => other
  end.

(** The operations that are calls of a declared member function. *)
Definition member_call (o : op) : bool :=
  match o with
  | Update _ _ => true
  | _ => false
  end.

(** A sequence of operations, oldest first. *)
Definition run (fc : t) (os : list op) : t := foldl apply fc os.
End FlagCache.

(** ** [class RegFile] (lines 154-190) *)

(** Modelled from the spec: the register identifier [LLReg] of
    [rellume/instr.h], a register class and an index within that class. *)
Inductive RegClass : Type := GP | Vec.

#[global] Instance RegClass_eq_dec : EqDecision RegClass.
Proof. solve_decision. Defined.

Record LLReg : Type := mkLLReg { rt : RegClass; ri : nat }.

#[global] Instance LLReg_eq_dec : EqDecision LLReg.
Proof. solve_decision. Defined.

Module RegFile.

(** The data members (lines 183-189).  [regs_gp] has [LL_RI_GPMax]
    entries, [regs_sse] has [LL_RI_XMMMax] and [flags] has [RFLAG_Max]. *)
Record t : Type := mk {
  llvm_block : BasicBlock;
  regs_gp : list ValueMap.t;
  regs_sse : list ValueMap.t;
  reg_ip : LLVMValue;
  flags : list LLVMValue;
  flag_cache : FlagCache.t
}.

(** [RegFile(llvm::BasicBlock* llvm_block) : llvm_block(llvm_block),
    flag_cache() {}].  The constructor runs on the storage of the object:
    the members without an initialiser ([ValueMap] has no constructor of
    its own, the others are pointers and arrays of pointers) keep whatever
    that storage holds. *)
Definition ctor (storage : t) (block : BasicBlock) : t :=
  {| llvm_block := block;
     regs_gp := regs_gp storage;
     regs_sse := regs_sse storage;
     reg_ip := reg_ip storage;
     flags := flags storage;
     flag_cache := FlagCache.ctor (flag_cache storage) |}.

(** Every slot of the register file is empty: each facet slot of each
    register, the instruction-pointer slot and each flag slot. *)
Definition all_empty (rf : t) : Prop :=
  Forall (fun vm => Forall (fun x => x = nullptr) (ValueMap.values vm)) (regs_gp rf)
  /\ Forall (fun vm => Forall (fun x => x = nullptr) (ValueMap.values vm)) (regs_sse rf)
  /\ reg_ip rf = nullptr
  /\ Forall (fun x => x = nullptr) (flags rf).

(** [GetFlagCache()] *)
Definition GetFlagCache (rf : t) : FlagCache.t := flag_cache rf.

(** [GetFlagCache()] returns a [FlagCache&]: what a client does to it
    happens in place, in the register file. *)
Definition on_flag_cache (rf : t) (o : FlagCache.op) : t :=
  {| llvm_block := llvm_block rf;
     regs_gp := regs_gp rf;
     regs_sse := regs_sse rf;
     reg_ip := reg_ip rf;
     flags := flags rf;
     flag_cache := FlagCache.apply (flag_cache rf) o |}.

(** The per-class register array a register lives in. *)
Definition regs (rf : t) (c : RegClass) : list ValueMap.t :=
  match c with
  | GP => regs_gp rf
  | Vec => regs_sse rf
  end.

Definition with_regs (rf : t) (c : RegClass) (a : list ValueMap.t) : t :=
  match c with
  | GP =>
      {| llvm_block := llvm_block rf; regs_gp := a; regs_sse := regs_sse rf;
         reg_ip := reg_ip rf; flags := flags rf; flag_cache := flag_cache rf |}
  | Vec =>
      {| llvm_block := llvm_block rf; regs_gp := regs_gp rf; regs_sse := a;
         reg_ip := reg_ip rf; flags := flags rf; flag_cache := flag_cache rf |}
  end.

Section Ops.
Variable LL_VECTOR_REGISTER_SIZE : N.

(** The backend's conversion of a value from one facet to another,
    which may fail. *)
Variable convert : LLVMValue -> Facet.Value -> Facet.Value -> option LLVMValue.

(** The order in which the facets of a class are scanned for a source
    when the given facet has to be synthesised. *)
Variable priority : RegClass -> Facet.Value -> list Facet.Value.

(** The parameter pack of the [ValueMap] of a class. *)
Definition class_facets (c : RegClass) : list Facet.Value :=
  match c with
  | GP => ValueMapGp
  | Vec => ValueMapSse LL_VECTOR_REGISTER_SIZE
  end.

Definition map_at (c : RegClass) : Facet.Value -> outcome nat :=
  ValueMap.at_ LL_VECTOR_REGISTER_SIZE (class_facets c).
Definition map_get (c : RegClass) : ValueMap.t -> Facet.Value -> outcome LLVMValue :=
  ValueMap.at_get LL_VECTOR_REGISTER_SIZE (class_facets c).
Definition map_set (c : RegClass)
  : ValueMap.t -> Facet.Value -> LLVMValue -> outcome ValueMap.t :=
  ValueMap.at_set LL_VECTOR_REGISTER_SIZE (class_facets c).

(** [regs_gp[reg.ri]] or [regs_sse[reg.ri]] *)
Definition reg_map (rf : t) (reg : LLReg) : outcome ValueMap.t :=
  load (regs rf (rt reg)) (ri reg).

Definition set_reg_map (rf : t) (reg : LLReg) (vm : ValueMap.t) : outcome t :=
  a ← store (regs rf (rt reg)) (ri reg) vm;
  Ok (with_regs rf (rt reg) a).

(** The first facet of [cands] whose slot is populated, with its value. *)
Fixpoint find_source (c : RegClass) (vm : ValueMap.t) (cands : list Facet.Value)
  : option (Facet.Value * LLVMValue) :=
  match cands with
  | [] => None
  | g :: rest =>
      match map_get c vm g with
      | Ok x => if decide (x = nullptr) then find_source c vm rest else Some (g, x)
      | _ => find_source c vm rest
      end
  end.

(** Modelled from the spec: the synthesis step of [GetValue], whose code
    is in [llregfile.cc].  The supported facets are scanned in the fixed
    priority; no populated facet is fatal; the backend converts the
    source found, and its failure is the recoverable lowering error. *)
Definition synthesize (c : RegClass) (vm : ValueMap.t) (facet : Facet.Value)
  : outcome LLVMValue :=
  match find_source c vm (priority c facet) with
  | None => AssertFail
  | Some (g, x) =>
      match convert x g facet with
      | Some y => Ok y
      | None => ConversionFailure
      end
  end.

(** Modelled from the spec: [GetReg] ([GetValue]), declared on line 171,
    whose body is in [llregfile.cc].  A populated slot is returned
    unchanged; an empty one is synthesised from another facet and the
    result is stored in the slot before it is returned. *)
Definition GetReg (rf : t) (reg : LLReg) (facet : Facet.Value)
  : outcome (LLVMValue * t) :=
  vm ← reg_map rf reg;
  cur ← map_get (rt reg) vm facet;
  if decide (cur = nullptr) then
    y ← synthesize (rt reg) vm facet;
    vm' ← map_set (rt reg) vm facet y;
    rf' ← set_reg_map rf reg vm';
    Ok (y, rf')
  else Ok (cur, rf).

(** Modelled from the spec: [SetReg] ([SetValue]), declared on line 172,
    whose body is in [llregfile.cc].  The value is stored as given in
    the slot of [facet]; with [clear_facets] every other slot of the
    register is emptied. *)
Definition SetReg (rf : t) (reg : LLReg) (facet : Facet.Value)
    (value : LLVMValue) (clear_facets : bool) : outcome t :=
  vm ← reg_map rf reg;
  vm' ← map_set (rt reg)
          (if clear_facets then ValueMap.clear (class_facets (rt reg)) vm else vm)
          facet value;
  set_reg_map rf reg vm'.

(** Modelled from the spec: [Rename], declared on line 173, whose body
    is in [llregfile.cc].  The whole slot state of [reg_src] is copied
    to [reg_dst]; the two registers must be of one class. *)
Definition Rename (rf : t) (reg_dst reg_src : LLReg) : outcome t :=
  if decide (rt reg_dst = rt reg_src) then
    vm ← reg_map rf reg_src;
    set_reg_map rf reg_dst vm
  else AssertFail.
End Ops.

(** *** The members the class declares *)

Inductive access : Type := Public | Private.
Inductive member_kind : Type := NestedType | Constructor | MemberFunction | DataMember.

(** The types the declarations use. *)
Inductive ctype : Type :=
  | TVoid
  | TBool
  | TInt
  | TValuePtr          (* llvm::Value* *)
  | TBasicBlockPtr     (* llvm::BasicBlock* *)
  | TLLReg
  | TFacet
  | TFlagCache
  | TFlagCacheRef      (* RegFile::FlagCache& *)
  | TValueMapGp
  | TValueMapSse
  | TArray (elem : ctype) (size : string).

#[global] Instance access_eq_dec : EqDecision access.
Proof. solve_decision. Defined.
#[global] Instance member_kind_eq_dec : EqDecision member_kind.
Proof. solve_decision. Defined.
#[global] Instance ctype_eq_dec : EqDecision ctype.
Proof. solve_decision. Defined.

(** A member: its name, access and kind, the types of its parameters and
    its own type (the return type of a function). *)
Record member : Type := mkMember {
  m_name : string;
  m_access : access;
  m_kind : member_kind;
  m_params : list ctype;
  m_type : ctype
}.

(** Lines 156-189, in declaration order. *)
Definition members : list member :=
  [ mkMember "FlagCache" Public NestedType [] TFlagCache;
    mkMember "RegFile" Public Constructor [TBasicBlockPtr] TVoid;
    mkMember "GetReg" Public MemberFunction [TLLReg; TFacet] TValuePtr;
    mkMember "SetReg" Public MemberFunction [TLLReg; TFacet; TValuePtr; TBool] TVoid;
    mkMember "Rename" Public MemberFunction [TLLReg; TLLReg] TVoid;
    mkMember "GetFlag" Public MemberFunction [TInt] TValuePtr;
    mkMember "SetFlag" Public MemberFunction [TInt; TValuePtr] TVoid;
    mkMember "GetFlagCache" Public MemberFunction [] TFlagCacheRef;
    mkMember "llvm_block" Private DataMember [] TBasicBlockPtr;
    mkMember "regs_gp" Private DataMember [] (TArray TValueMapGp "LL_RI_GPMax");
    mkMember "regs_sse" Private DataMember [] (TArray TValueMapSse "LL_RI_XMMMax");
    mkMember "reg_ip" Private DataMember [] TValuePtr;
    mkMember "flags" Private DataMember [] (TArray TValuePtr "RFLAG_Max");
    mkMember "flag_cache" Private DataMember [] TFlagCache ].

(** A member function a client of the class can call. *)
Definition public_function (m : member) : Prop :=
  m_access m = Public /\ m_kind m = MemberFunction.

(** The names of these functions. *)
Definition public_functions : list string :=
  m_name <$> filter public_function members.

(** The member called [n], if the class declares one. *)
Definition member_named (n : string) : option member :=
  snd <$> list_find (fun m => m_name m = n) members.

(** A direct read accessor of the instruction-pointer slot: a public
    function of that name, or under any name one that takes no register and
    returns a value. *)
Definition ip_getter (m : member) : Prop :=
  public_function m
  /\ (m_name m = "GetInstructionPointer"
      \/ (m_params m = [] /\ m_type m = TValuePtr)).

(** A direct write accessor of the slot: a public function of that name,
    or under any name one that takes just the value. *)
Definition ip_setter (m : member) : Prop :=
  public_function m
  /\ (m_name m = "SetInstructionPointer"
      \/ (m_params m = [TValuePtr] /\ m_type m = TVoid)).
End RegFile.

(** * Properties *)

(** ** The outcome monad *)

Lemma load_Ok {A : Type} (a : list A) (i : nat) (x : A) :
  load a i = Ok x <-> a !! i = Some x.
Proof.
  unfold load. destruct (a !! i); split; intros H; congruence.
Qed.

Lemma load_lt {A : Type} (a : list A) (i : nat) :
  i < length a -> exists x, load a i = Ok x /\ a !! i = Some x.
Proof.
  intros Hi. destruct (lookup_lt_is_Some_2 a i Hi) as [x Hx].
  exists x. split; [by apply load_Ok | done].
Qed.

Lemma store_Ok {A : Type} (a : list A) (i : nat) (x : A) :
  i < length a -> store a i x = Ok (<[i := x]> a).
Proof. intros Hi. unfold store. by rewrite decide_True. Qed.

(** ** The enumeration *)

Lemma index_of_lookup (v : Facet.Value) (l : list Facet.Value) :
  Facet.index_of v l < length l -> l !! Facet.index_of v l = Some v.
Proof.
  induction l as [|x l IH]; simpl; [lia|].
  destruct (decide (x = v)) as [->|Hne]; [done|].
  intros Hlt. apply IH. lia.
Qed.

Lemma enumerators_MAX (vsz : N) :
  S (Facet.to_int vsz Facet.MAX) = length (Facet.enumerators vsz).
Proof.
  unfold Facet.to_int, Facet.enumerators.
  by destruct (256 <=? vsz)%N.
Qed.

(** Two enumerators with one integer value below [MAX] are one. *)
Lemma to_int_inj (vsz : N) (v w : Facet.Value) :
  Facet.to_int vsz v < Facet.to_int vsz Facet.MAX ->
  Facet.to_int vsz v = Facet.to_int vsz w ->
  v = w.
Proof.
  intros Hlt Heq.
  pose proof (enumerators_MAX vsz) as HM.
  assert (Hv : Facet.enumerators vsz !! Facet.to_int vsz v = Some v)
    by (apply index_of_lookup; fold (Facet.to_int vsz v); lia).
  assert (Hw : Facet.enumerators vsz !! Facet.to_int vsz w = Some w)
    by (apply index_of_lookup; fold (Facet.to_int vsz w); lia).
  rewrite Heq in Hv. congruence.
Qed.

Lemma norm_cases (vsz : N) : norm vsz = 128%N \/ norm vsz = 256%N.
Proof. unfold norm. destruct (256 <=? vsz)%N; auto. Qed.

Lemma to_int_norm (vsz : N) : Facet.to_int vsz = Facet.to_int (norm vsz).
Proof.
  unfold Facet.to_int, Facet.enumerators, norm.
  by destruct (256 <=? vsz)%N.
Qed.

Lemma ValueMapSse_norm (vsz : N) : ValueMapSse vsz = ValueMapSse (norm vsz).
Proof. unfold ValueMapSse, norm. by destruct (256 <=? vsz)%N. Qed.

(** ** The lookup table *)

Section LookupTable_facts.
Context {T : Type}.
Variable to_int : T -> nat.
Variable zero : T.

Lemma fill_snoc (il : list T) (e : T) (i : nat) (tb : LookupTable.t T) :
  LookupTable.fill to_int (il ++ [e]) i tb =
  {| LookupTable.f := <[i + length il := e]> (LookupTable.f (LookupTable.fill to_int il i tb));
     LookupTable.b :=
       <[to_int e := 1 + (i + length il)]> (LookupTable.b (LookupTable.fill to_int il i tb)) |}.
Proof.
  revert i tb. induction il as [|x il IH]; intros i tb; simpl.
  - by rewrite Nat.add_0_r.
  - rewrite IH. by replace (S i + length il) with (i + S (length il)) by lia.
Qed.

Lemma fill_f_length (il : list T) (i : nat) (tb : LookupTable.t T) :
  length (LookupTable.f (LookupTable.fill to_int il i tb)) = length (LookupTable.f tb).
Proof.
  revert i tb. induction il as [|x il IH]; intros i tb; simpl; [done|].
  by rewrite IH; simpl; rewrite length_insert.
Qed.

Lemma fill_b_length (il : list T) (i : nat) (tb : LookupTable.t T) :
  length (LookupTable.b (LookupTable.fill to_int il i tb)) = length (LookupTable.b tb).
Proof.
  revert i tb. induction il as [|x il IH]; intros i tb; simpl; [done|].
  by rewrite IH; simpl; rewrite length_insert.
Qed.

(** The forward array holds the list, from the start index on. *)
Lemma fill_f_lookup (il : list T) (i : nat) (tb : LookupTable.t T) (k : nat) :
  i + length il <= length (LookupTable.f tb) ->
  LookupTable.f (LookupTable.fill to_int il i tb) !! k =
  if decide (i <= k < i + length il) then il !! (k - i)
  else LookupTable.f tb !! k.
Proof.
  revert i tb k. induction il as [|x il IH] using rev_ind; intros i tb k Hlen.
  - simpl. rewrite decide_False by lia. done.
  - rewrite length_app in *. simpl in *. rewrite fill_snoc. simpl.
    destruct (decide (i + length il = k)) as [<-|Hk].
    + rewrite list_lookup_insert_eq by (rewrite fill_f_length; lia).
      rewrite decide_True by lia.
      replace (i + length il - i) with (length il) by lia.
      by rewrite lookup_app_r, Nat.sub_diag by lia.
    + rewrite list_lookup_insert_ne by done.
      rewrite IH by lia.
      destruct (decide (i <= k < i + length il)) as [Hin|Hout].
      * rewrite decide_True by lia. by rewrite lookup_app_l by lia.
      * by rewrite decide_False by lia.
Qed.

(** An entry of the backward array no element writes keeps its value. *)
Lemma fill_b_other (il : list T) (i : nat) (tb : LookupTable.t T) (j : nat) :
  (forall e, e ∈ il -> to_int e <> j) ->
  LookupTable.b (LookupTable.fill to_int il i tb) !! j = LookupTable.b tb !! j.
Proof.
  revert i tb. induction il as [|x il IH]; intros i tb Hno; simpl; [done|].
  rewrite IH by (intros e He; apply Hno; by right). simpl.
  apply list_lookup_insert_ne, Hno. by left.
Qed.

(** An entry some element writes holds one plus the position of an
    element with that integer value: the last one. *)
Lemma fill_b_written (il : list T) (i : nat) (tb : LookupTable.t T) (j : nat) :
  j < length (LookupTable.b tb) ->
  (exists e, e ∈ il /\ to_int e = j) ->
  exists k e, il !! k = Some e /\ to_int e = j /\
    LookupTable.b (LookupTable.fill to_int il i tb) !! j = Some (1 + (i + k)).
Proof.
  revert i tb. induction il as [|x il IH] using rev_ind; intros i tb Hj [e [He Hej]].
  - by apply elem_of_nil in He.
  - rewrite fill_snoc. simpl.
    destruct (decide (to_int x = j)) as [Hx|Hx].
    + exists (length il), x. split_and!; [|done|].
      * by rewrite lookup_app_r, Nat.sub_diag by lia.
      * rewrite Hx. apply list_lookup_insert_eq. by rewrite fill_b_length.
    + apply elem_of_app in He as [He|He];
        [|apply list_elem_of_singleton in He; congruence].
      destruct (IH i tb Hj) as (k & e' & Hk & He' & Hb); [by exists e|].
      exists k, e'. split_and!; [|done|].
      * by apply lookup_app_l_Some.
      * by rewrite list_lookup_insert_ne.
Qed.

(** With no integer value twice, the entry of the element at position
    [k] is [1 + k]. *)
Lemma fill_b_position (il : list T) (i : nat) (tb : LookupTable.t T)
    (k : nat) (e : T) :
  NoDup (to_int <$> il) ->
  il !! k = Some e ->
  to_int e < length (LookupTable.b tb) ->
  LookupTable.b (LookupTable.fill to_int il i tb) !! to_int e = Some (1 + (i + k)).
Proof.
  intros Hnd Hk Hlt.
  destruct (fill_b_written il i tb (to_int e) Hlt) as (k' & e' & Hk' & He' & Hb).
  { exists e. split; [by eapply list_elem_of_lookup_2|done]. }
  assert (k' = k) as ->; [|done].
  eapply NoDup_lookup; [exact Hnd| |].
  - by rewrite list_lookup_fmap, Hk'.
  - by rewrite list_lookup_fmap, Hk, He'.
Qed.

(** The constructed table: the forward array is the initialiser list. *)
Lemma ctor_f (M : nat) (il : list T) :
  LookupTable.f (LookupTable.ctor to_int zero (length il) M il) = il.
Proof.
  unfold LookupTable.ctor. apply list_eq. intros k.
  rewrite fill_f_lookup by (simpl; rewrite length_replicate; lia).
  destruct (decide (0 <= k < 0 + length il)) as [Hk|Hk].
  - by rewrite Nat.sub_0_r.
  - rewrite (proj2 (lookup_ge_None il k)) by lia.
    apply lookup_ge_None. simpl. rewrite length_replicate. lia.
Qed.

Lemma ctor_b_length (N M : nat) (il : list T) :
  length (LookupTable.b (LookupTable.ctor to_int zero N M il)) = M.
Proof.
  unfold LookupTable.ctor. rewrite fill_b_length. simpl.
  by rewrite length_replicate.
Qed.

Lemma ctor_b_other (N M : nat) (il : list T) (j : nat) :
  j < M ->
  (forall e, e ∈ il -> to_int e <> j) ->
  LookupTable.b (LookupTable.ctor to_int zero N M il) !! j = Some 0.
Proof.
  intros Hj Hno. unfold LookupTable.ctor.
  rewrite fill_b_other by done. simpl. by apply lookup_replicate_2.
Qed.

Lemma ctor_b_written (N M : nat) (il : list T) (j : nat) :
  j < M ->
  (exists e, e ∈ il /\ to_int e = j) ->
  exists k e, il !! k = Some e /\ to_int e = j /\
    LookupTable.b (LookupTable.ctor to_int zero N M il) !! j = Some (S k).
Proof.
  intros Hj Hin. unfold LookupTable.ctor.
  apply (fill_b_written il 0); [|done].
  simpl. by rewrite length_replicate.
Qed.

Lemma ctor_b_position (N M : nat) (il : list T) (k : nat) (e : T) :
  NoDup (to_int <$> il) ->
  il !! k = Some e ->
  to_int e < M ->
  LookupTable.b (LookupTable.ctor to_int zero N M il) !! to_int e = Some (S k).
Proof.
  intros Hnd Hk Hlt. unfold LookupTable.ctor.
  apply (fill_b_position il 0); try done.
  simpl. by rewrite length_replicate.
Qed.
End LookupTable_facts.

(** ** The value map *)

Section ValueMap_facts.
Variable vsz : N.
Variable E : list Facet.Value.

Lemma ValueMap_facets_pack : ValueMap.facets vsz E = E.
Proof. unfold ValueMap.facets, ValueMap.table. apply ctor_f. Qed.

Lemma ValueMap_b_length :
  length (LookupTable.b (ValueMap.table vsz E)) = Facet.to_int vsz Facet.MAX.
Proof. unfold ValueMap.table. apply ctor_b_length. Qed.

Lemma in_range_elem (e : Facet.Value) :
  ValueMap.in_range vsz E -> e ∈ E ->
  Facet.to_int vsz e < Facet.to_int vsz Facet.MAX.
Proof.
  unfold ValueMap.in_range. rewrite Forall_forall. intros H He. by apply H.
Qed.

Lemma in_range_NoDup :
  ValueMap.in_range vsz E -> NoDup E -> NoDup (Facet.to_int vsz <$> E).
Proof.
  intros Hr Hnd. apply NoDup_fmap_2_strong; [|done].
  intros x y Hx Hy Heq. eapply to_int_inj; [|exact Heq].
  by apply in_range_elem.
Qed.

(** A facet outside the pack fails the assertion of [at]. *)
Lemma ValueMap_at_unsupported (v : Facet.Value) :
  Facet.to_int vsz v < Facet.to_int vsz Facet.MAX ->
  v ∉ E ->
  LookupTable.b (ValueMap.table vsz E) !! Facet.to_int vsz v = Some 0 /\
  ValueMap.at_ vsz E v = AssertFail.
Proof.
  intros Hlt Hnot.
  assert (Hb : LookupTable.b (ValueMap.table vsz E) !! Facet.to_int vsz v = Some 0).
  { unfold ValueMap.table. apply ctor_b_other; [done|].
    intros e He Heq. apply Hnot.
    assert (e = v) as <-; [|done].
    symmetry. eapply to_int_inj; [exact Hlt|]. by symmetry. }
  split; [done|].
  unfold ValueMap.at_, ValueMap.static_cast_int, load. by rewrite Hb.
Qed.

(** A facet of the pack designates a slot of the array, one whose
    position in the pack holds that facet. *)
Lemma ValueMap_at_supported (v : Facet.Value) :
  ValueMap.in_range vsz E ->
  v ∈ E ->
  exists i, ValueMap.at_ vsz E v = Ok i /\ E !! i = Some v.
Proof.
  intros Hr Hv.
  pose proof (in_range_elem v Hr Hv) as Hlt.
  destruct (ctor_b_written (Facet.to_int vsz) Facet.I64 (length E)
              (Facet.to_int vsz Facet.MAX) E (Facet.to_int vsz v) Hlt)
    as (k & e & Hk & He & Hb); [by exists v|].
  assert (v = e) as <- by (eapply to_int_inj; [exact Hlt|by symmetry]).
  exists k. split; [|done].
  unfold ValueMap.at_, ValueMap.table, ValueMap.static_cast_int, load.
  by rewrite Hb.
Qed.

(** Without a facet twice in the pack, that position is the facet's own. *)
Lemma ValueMap_at_position (i : nat) (e : Facet.Value) :
  ValueMap.in_range vsz E ->
  NoDup E ->
  E !! i = Some e ->
  LookupTable.b (ValueMap.table vsz E) !! Facet.to_int vsz e = Some (S i) /\
  ValueMap.at_ vsz E e = Ok i.
Proof.
  intros Hr Hnd Hi.
  assert (He : e ∈ E) by (by eapply list_elem_of_lookup_2).
  assert (Hb : LookupTable.b (ValueMap.table vsz E) !! Facet.to_int vsz e
               = Some (S i)).
  { unfold ValueMap.table. apply ctor_b_position; [|done|].
    - by apply in_range_NoDup.
    - by apply in_range_elem. }
  split; [done|].
  unfold ValueMap.at_, ValueMap.static_cast_int, load. by rewrite Hb.
Qed.

(** [at] returns a slot for the facets of the pack and for no other. *)
Lemma ValueMap_at_Ok_iff (v : Facet.Value) :
  ValueMap.in_range vsz E ->
  (exists i, ValueMap.at_ vsz E v = Ok i) <-> v ∈ E.
Proof.
  intros Hr. split.
  - intros [i Hi].
    destruct (decide (v ∈ E)) as [|Hnot]; [done|exfalso].
    destruct (decide (Facet.to_int vsz v < Facet.to_int vsz Facet.MAX))
      as [Hlt|Hge].
    + destruct (ValueMap_at_unsupported v Hlt Hnot) as [_ Hat]. congruence.
    + unfold ValueMap.at_, ValueMap.static_cast_int, load in Hi.
      rewrite (proj2 (lookup_ge_None _ _)) in Hi; [done|].
      rewrite ValueMap_b_length. lia.
  - intros Hv. destruct (ValueMap_at_supported v Hr Hv) as (i & Hi & _).
    by exists i.
Qed.
End ValueMap_facts.

(** The packs of the two register classes are in range and without
    repetition, whatever the vector register size. *)
Lemma class_facets_in_range (vsz : N) (c : RegClass) :
  ValueMap.in_range vsz (RegFile.class_facets vsz c).
Proof.
  unfold ValueMap.in_range, ValueMap.static_cast_int, RegFile.class_facets.
  rewrite to_int_norm, ValueMapSse_norm.
  destruct c, (norm_cases vsz) as [-> | ->];
    repeat constructor; vm_compute; lia.
Qed.

Lemma class_facets_NoDup (vsz : N) (c : RegClass) :
  NoDup (RegFile.class_facets vsz c).
Proof.
  unfold RegFile.class_facets. rewrite ValueMapSse_norm.
  destruct c, (norm_cases vsz) as [Hn | Hn]; rewrite ?Hn;
    apply (bool_decide_unpack _); vm_compute; exact I.
Qed.

Lemma pseudo_below_MAX (vsz : N) (P : Facet.Value) :
  P ∈ Facet.pseudo -> Facet.to_int vsz P < Facet.to_int vsz Facet.MAX.
Proof.
  rewrite to_int_norm. unfold Facet.pseudo. intros HP.
  repeat (apply elem_of_cons in HP as [-> | HP];
          [destruct (norm_cases vsz) as [-> | ->]; vm_compute; lia|]).
  by apply elem_of_nil in HP.
Qed.

Lemma pseudo_not_class_facet (vsz : N) (c : RegClass) (P : Facet.Value) :
  P ∈ Facet.pseudo -> P ∉ RegFile.class_facets vsz c.
Proof.
  unfold RegFile.class_facets. rewrite ValueMapSse_norm.
  unfold Facet.pseudo. intros HP.
  repeat (apply elem_of_cons in HP as [-> | HP];
          [destruct c, (norm_cases vsz) as [Hn | Hn]; rewrite ?Hn;
             apply (bool_decide_unpack _); vm_compute; exact I|]).
  by apply elem_of_nil in HP.
Qed.

(** ** Claims about the value map *)

(** C2. For every value map and every facet [v] outside its pack, [at(v)]
    fails its assertion, and so does any read or write through it: no
    value, no error code and no slot comes back.  For every facet of the
    pack, [at(v)] designates a slot inside the [values] array, which a
    read through it returns.  A facet is an enumerator below [MAX], and
    the pack holds only such. *)
Theorem ValueMap_at_contract (vsz : N) (E : list Facet.Value) (v : Facet.Value) :
  ValueMap.in_range vsz E ->
  (Facet.to_int vsz v < Facet.to_int vsz Facet.MAX -> v ∉ E ->
     ValueMap.at_ vsz E v = AssertFail
     /\ (forall vm, ValueMap.at_get vsz E vm v = AssertFail)
     /\ (forall vm x, ValueMap.at_set vsz E vm v x = AssertFail))
  /\ (v ∈ E ->
     exists i, ValueMap.at_ vsz E v = Ok i /\ i < length E
       /\ forall vm, length (ValueMap.values vm) = length E ->
            exists x, ValueMap.at_get vsz E vm v = Ok x
                      /\ ValueMap.values vm !! i = Some x).
Proof.
  intros Hr. split.
  - intros Hlt Hnot.
    destruct (ValueMap_at_unsupported vsz E v Hlt Hnot) as [_ Hat].
    split_and!; [done| |].
    + intros vm. unfold ValueMap.at_get. by rewrite Hat.
    + intros vm x. unfold ValueMap.at_set. by rewrite Hat.
  - intros Hv.
    destruct (ValueMap_at_supported vsz E v Hr Hv) as (i & Hat & Hi).
    exists i. pose proof (lookup_lt_Some _ _ _ Hi) as Hlt.
    split_and!; [done..|].
    intros vm Hlen.
    destruct (load_lt (ValueMap.values vm) i) as (x & Hx & Hx'); [lia|].
    exists x. split; [|done].
    unfold ValueMap.at_get. rewrite Hat. exact Hx.
Qed.

Lemma ValueMap_at_contract_witness :
  ValueMap.at_ 128 ValueMapGp Facet.V4F32 = AssertFail
  /\ exists i, ValueMap.at_ 128 ValueMapGp Facet.I8H = Ok i /\ i < 6.
Proof.
  assert (Hr : ValueMap.in_range 128 ValueMapGp)
    by (repeat constructor; vm_compute; lia).
  split.
  - apply (ValueMap_at_contract 128 ValueMapGp Facet.V4F32 Hr).
    + vm_compute. lia.
    + apply (bool_decide_unpack _). vm_compute. exact I.
  - destruct (ValueMap_at_contract 128 ValueMapGp Facet.I8H Hr) as [_ H].
    destruct H as (i & Hi & Hlt & _).
    + apply (bool_decide_unpack _). vm_compute. exact I.
    + exists i. split; [exact Hi | exact Hlt].
Defined.

(** C4. For every value map built from a pack [E] of distinct facets: the
    backward entry of the facet at position [i] is [1 + i], so [at]
    designates slot [i] with one table read and the forward array gives
    the facet back; two facets of the pack never share a slot; the
    backward entry of a facet is 0 exactly when the facet is not in the
    pack; and [facets()] is the pack, in its order. *)
Theorem ValueMap_lookup_table (vsz : N) (E : list Facet.Value) :
  ValueMap.in_range vsz E ->
  NoDup E ->
  (forall i e, E !! i = Some e ->
     LookupTable.b (ValueMap.table vsz E) !! Facet.to_int vsz e = Some (S i)
     /\ LookupTable.f (ValueMap.table vsz E) !! (S i - 1) = Some e
     /\ ValueMap.at_ vsz E e = Ok i)
  /\ (forall v w i j, v ∈ E -> w ∈ E -> v <> w ->
        ValueMap.at_ vsz E v = Ok i -> ValueMap.at_ vsz E w = Ok j -> i <> j)
  /\ (forall v, Facet.to_int vsz v < Facet.to_int vsz Facet.MAX ->
        (LookupTable.b (ValueMap.table vsz E) !! Facet.to_int vsz v = Some 0
         <-> v ∉ E))
  /\ ValueMap.facets vsz E = E.
Proof.
  intros Hr Hnd. split_and!.
  - intros i e Hi.
    destruct (ValueMap_at_position vsz E i e Hr Hnd Hi) as [Hb Hat].
    split_and!; [done| |done].
    fold (ValueMap.facets vsz E). rewrite ValueMap_facets_pack.
    by rewrite Nat.sub_1_r.
  - intros v w i j Hv Hw Hne Hi Hj ->.
    destruct (ValueMap_at_supported vsz E v Hr Hv) as (i' & Hi' & Hvi).
    destruct (ValueMap_at_supported vsz E w Hr Hw) as (j' & Hj' & Hwj).
    congruence.
  - intros v Hlt. split.
    + intros Hb Hv.
      destruct (ValueMap_at_supported vsz E v Hr Hv) as (i & Hi & _).
      unfold ValueMap.at_, ValueMap.static_cast_int, load in Hi.
      by rewrite Hb in Hi.
    + intros Hnot. by destruct (ValueMap_at_unsupported vsz E v Hlt Hnot).
  - apply ValueMap_facets_pack.
Qed.

Lemma ValueMap_lookup_table_witness :
  ValueMap.at_ 256 (ValueMapSse 256) Facet.V2F64 = Ok 26
  /\ ValueMap.facets 256 (ValueMapSse 256) = ValueMapSse 256.
Proof.
  assert (Hr : ValueMap.in_range 256 (ValueMapSse 256))
    by (repeat constructor; vm_compute; lia).
  assert (Hnd : NoDup (ValueMapSse 256))
    by (apply (bool_decide_unpack _); vm_compute; exact I).
  destruct (ValueMap_lookup_table 256 (ValueMapSse 256) Hr Hnd)
    as (Hpos & _ & _ & Hf).
  split; [|exact Hf].
  apply (Hpos 26 Facet.V2F64). reflexivity.
Defined.

(** C6. For every pseudo-facet [P] of [I, VI8, VI16, VI32, VI64, VF32,
    VF64] and both register classes: [P] is not among the facets of the
    class's value map, [at(P)] fails its assertion, so that no read and no
    write through it reaches a slot, and every slot the map has is the slot
    of a facet that is not a pseudo-facet. *)
Theorem pseudo_facet_never_a_slot (vsz : N) (c : RegClass) (P : Facet.Value) :
  P ∈ Facet.pseudo ->
  (P ∉ ValueMap.facets vsz (RegFile.class_facets vsz c))
  /\ ValueMap.at_ vsz (RegFile.class_facets vsz c) P = AssertFail
  /\ (forall vm, ValueMap.at_get vsz (RegFile.class_facets vsz c) vm P = AssertFail)
  /\ (forall vm x,
        ValueMap.at_set vsz (RegFile.class_facets vsz c) vm P x = AssertFail)
  /\ (forall v i, ValueMap.at_ vsz (RegFile.class_facets vsz c) v = Ok i ->
        v ∉ Facet.pseudo).
Proof.
  intros HP.
  pose proof (class_facets_in_range vsz c) as Hr.
  assert (Hfail : forall Q, Q ∈ Facet.pseudo ->
            ValueMap.at_ vsz (RegFile.class_facets vsz c) Q = AssertFail).
  { intros Q HQ.
    apply ValueMap_at_unsupported;
      [by apply pseudo_below_MAX | by apply pseudo_not_class_facet]. }
  split_and!.
  - rewrite ValueMap_facets_pack. by apply pseudo_not_class_facet.
  - by apply Hfail.
  - intros vm. unfold ValueMap.at_get. by rewrite Hfail.
  - intros vm x. unfold ValueMap.at_set. by rewrite Hfail.
  - intros v i Hat Hv. rewrite Hfail in Hat by done. discriminate.
Qed.

Lemma pseudo_facet_never_a_slot_witness :
  ValueMap.at_ 128 (ValueMapSse 128) Facet.VF32 = AssertFail.
Proof.
  destruct (pseudo_facet_never_a_slot 128 Vec Facet.VF32) as (_ & Hat & _).
  - apply (bool_decide_unpack _). vm_compute. exact I.
  - exact Hat.
Defined.

(** C7. The general-purpose class supports exactly the six facets [I64],
    [I32], [I16], [I8], [I8H] and [PTR]: they are what [facets()] lists,
    and [at] designates a slot for these six and for no other facet. *)
Theorem ValueMapGp_six_facets (vsz : N) :
  ValueMap.facets vsz ValueMapGp
    = [Facet.I64; Facet.I32; Facet.I16; Facet.I8; Facet.I8H; Facet.PTR]
  /\ length (ValueMap.facets vsz ValueMapGp) = 6
  /\ (forall v, (exists i, ValueMap.at_ vsz ValueMapGp v = Ok i)
        <-> v ∈ [Facet.I64; Facet.I32; Facet.I16; Facet.I8; Facet.I8H; Facet.PTR]).
Proof.
  rewrite ValueMap_facets_pack. split_and!; [done..|].
  intros v. apply ValueMap_at_Ok_iff.
  exact (class_facets_in_range vsz GP).
Qed.

(** ** Claims about the flag cache *)

(** C3. A freshly constructed flag cache has [valid == false]; whatever
    the cache holds, [update(a, b)] leaves it valid with [lhs == a] and
    [rhs == b]; a second [update(c, d)] leaves exactly what a single
    [update(c, d)] leaves, with nothing of [a] and [b] kept. *)
Theorem FlagCache_update_overwrites :
  (forall storage, FlagCache.valid (FlagCache.ctor storage) = false)
  /\ (forall fc a b,
        FlagCache.valid (FlagCache.update fc a b) = true
        /\ FlagCache.lhs (FlagCache.update fc a b) = a
        /\ FlagCache.rhs (FlagCache.update fc a b) = b)
  /\ (forall fc a b c d,
        FlagCache.update (FlagCache.update fc a b) c d
          = {| FlagCache.valid := true; FlagCache.lhs := c; FlagCache.rhs := d |}).
Proof. by split_and!. Qed.

Lemma FlagCache_member_calls_valid (os : list FlagCache.op) (fc : FlagCache.t) :
  Forall (fun o => FlagCache.member_call o = true) os ->
  FlagCache.valid fc = true ->
  FlagCache.valid (FlagCache.run fc os) = true.
Proof.
  unfold FlagCache.run. intros Hos. revert fc.
  induction Hos as [|o os Ho _ IH]; intros fc Hv; [done|].
  simpl. apply IH. by destruct o.
Qed.

(** C10, as the struct declares it.  No declared member function sets
    [valid] back to false: [update], the only one besides the constructor,
    leaves [valid] true, so a valid cache stays valid through any sequence
    of member function calls, and so does a cache after one [update].  The
    struct does offer invalidation otherwise: [valid] is a public data
    member and the struct has its implicit copy assignment, both at hand
    through the [FlagCache&] that [GetFlagCache()] returns. *)
Theorem FlagCache_member_functions_keep_valid
    (fc : FlagCache.t) (os : list FlagCache.op) (rf : RegFile.t) :
  (forall o, FlagCache.member_call o = true ->
     FlagCache.valid (FlagCache.apply fc o) = true)
  /\ (Forall (fun o => FlagCache.member_call o = true) os ->
      FlagCache.valid fc = true ->
      FlagCache.valid (FlagCache.run fc os) = true)
  /\ (Forall (fun o => FlagCache.member_call o = true) os ->
      forall op1 op2,
        FlagCache.valid (FlagCache.run (FlagCache.update fc op1 op2) os) = true)
  /\ FlagCache.valid (FlagCache.apply fc (FlagCache.SetValid false)) = false
  /\ (forall storage,
        FlagCache.valid
          (FlagCache.apply fc (FlagCache.Assign (FlagCache.ctor storage))) = false)
  /\ FlagCache.valid
       (RegFile.GetFlagCache (RegFile.on_flag_cache rf (FlagCache.SetValid false)))
     = false.
Proof.
  split_and!.
  - by intros [].
  - apply FlagCache_member_calls_valid.
  - intros Hos op1 op2. by apply FlagCache_member_calls_valid.
  - done.
  - done.
  - done.
Qed.

Lemma FlagCache_member_functions_keep_valid_witness :
  FlagCache.valid
    (FlagCache.run {| FlagCache.valid := true; FlagCache.lhs := 3%N; FlagCache.rhs := 4%N |}
       [FlagCache.Update 5%N 6%N; FlagCache.Update 7%N 8%N]) = true.
Proof.
  destruct (FlagCache_member_functions_keep_valid
              {| FlagCache.valid := true; FlagCache.lhs := 3%N; FlagCache.rhs := 4%N |}
              [FlagCache.Update 5%N 6%N; FlagCache.Update 7%N 8%N]
              {| RegFile.llvm_block := 1%N;
                 RegFile.regs_gp := [];
                 RegFile.regs_sse := [];
                 RegFile.reg_ip := 2%N;
                 RegFile.flags := [];
                 RegFile.flag_cache :=
                   {| FlagCache.valid := true; FlagCache.lhs := 3%N;
                      FlagCache.rhs := 4%N |} |})
    as (_ & Hmono & _).
  apply Hmono.
  - repeat constructor.
  - reflexivity.
Defined.

(** C10, as the claim has it, fails: after an [update] a client can make
    the cache invalid again, by assigning to the public member [valid] or
    by assigning a freshly constructed cache. *)
Lemma FlagCache_valid_can_be_reset :
  ~ (forall (fc : FlagCache.t) (op1 op2 : LLVMValue) (os : list FlagCache.op),
       FlagCache.valid (FlagCache.run (FlagCache.update fc op1 op2) os) = true).
Proof.
  intros H.
  specialize (H {| FlagCache.valid := false; FlagCache.lhs := 0%N; FlagCache.rhs := 0%N |}
                1%N 2%N [FlagCache.SetValid false]).
  discriminate H.
Qed.

(** ** Claims about the register file class *)

(** C9. The constructor sets the basic-block pointer and constructs the
    flag cache with [valid == false], and nothing else: the register value
    maps, the instruction-pointer slot and the flag slots are what the
    storage of the object held before.  So the new register file is
    all-empty only where that storage already was, and there is storage on
    which it is not. *)
Theorem RegFile_ctor_initialises_only :
  (forall storage block,
     RegFile.llvm_block (RegFile.ctor storage block) = block
     /\ FlagCache.valid (RegFile.flag_cache (RegFile.ctor storage block)) = false
     /\ RegFile.regs_gp (RegFile.ctor storage block) = RegFile.regs_gp storage
     /\ RegFile.regs_sse (RegFile.ctor storage block) = RegFile.regs_sse storage
     /\ RegFile.reg_ip (RegFile.ctor storage block) = RegFile.reg_ip storage
     /\ RegFile.flags (RegFile.ctor storage block) = RegFile.flags storage
     /\ (RegFile.all_empty (RegFile.ctor storage block)
         <-> RegFile.all_empty storage))
  /\ (exists storage, forall block,
        ~ RegFile.all_empty (RegFile.ctor storage block)).
Proof.
  split.
  - intros storage block. by split_and!.
  - exists {| RegFile.llvm_block := 0%N;
              RegFile.regs_gp := [ {| ValueMap.values := [1; 0; 0; 0; 0; 0]%N |} ];
              RegFile.regs_sse := [];
              RegFile.reg_ip := 0%N;
              RegFile.flags := [0; 0; 0; 0; 0; 0]%N;
              RegFile.flag_cache :=
                {| FlagCache.valid := true; FlagCache.lhs := 0%N; FlagCache.rhs := 0%N |} |}.
    intros block (Hgp & _). simpl in Hgp.
    apply Forall_cons_1 in Hgp as [Hvm _]. simpl in Hvm.
    apply Forall_cons_1 in Hvm as [H1 _]. discriminate.
Qed.

(** C8, as the class declares it.  The instruction pointer has its own
    single slot, the data member [reg_ip] of type [llvm::Value*], and that
    member is private; the member functions a client can call are
    [GetReg], [SetReg], [Rename], [GetFlag], [SetFlag] and [GetFlagCache],
    and the class declares no member called [GetInstructionPointer] or
    [SetInstructionPointer]. *)
Theorem RegFile_instruction_pointer_private :
  RegFile.member_named "reg_ip"
    = Some (RegFile.mkMember "reg_ip" RegFile.Private RegFile.DataMember []
              RegFile.TValuePtr)
  /\ RegFile.public_functions
       = ["GetReg"; "SetReg"; "Rename"; "GetFlag"; "SetFlag"; "GetFlagCache"]
  /\ RegFile.member_named "GetInstructionPointer" = None
  /\ RegFile.member_named "SetInstructionPointer" = None.
Proof. by split_and!; vm_compute. Qed.

(** C8, as the claim has it, fails: no public member function is a direct
    accessor of the instruction-pointer slot, by its name or by its
    signature. *)
Lemma RegFile_no_instruction_pointer_accessor :
  ~ (Exists RegFile.ip_getter RegFile.members
     /\ Exists RegFile.ip_setter RegFile.members).
Proof.
  intros [Hget _]. apply Exists_exists in Hget as (m & Hin & Hpub & Hacc).
  unfold RegFile.members in Hin.
  repeat (apply elem_of_cons in Hin as [-> | Hin];
          [simpl in Hacc; destruct Hpub as [Hp Hk];
           destruct Hacc as [Hn | [Hps Hty]]; discriminate|]).
  by apply elem_of_nil in Hin.
Qed.


(** ** The register operations *)

Section RegFile_facts.
Variable vsz : N.
Variable convert : LLVMValue -> Facet.Value -> Facet.Value -> option LLVMValue.
Variable priority : RegClass -> Facet.Value -> list Facet.Value.

Lemma regs_with_regs_same (rf : RegFile.t) (c : RegClass) (a : list ValueMap.t) :
  RegFile.regs (RegFile.with_regs rf c a) c = a.
Proof. by destruct c. Qed.

Lemma regs_with_regs_other (rf : RegFile.t) (c c' : RegClass) (a : list ValueMap.t) :
  c' <> c -> RegFile.regs (RegFile.with_regs rf c a) c' = RegFile.regs rf c'.
Proof. by destruct c, c'. Qed.

Lemma reg_map_Ok (rf : RegFile.t) (reg : LLReg) (vm : ValueMap.t) :
  RegFile.reg_map rf reg = Ok vm <-> RegFile.regs rf (rt reg) !! ri reg = Some vm.
Proof. apply load_Ok. Qed.

(** A register that can be read can be written, and is then read back. *)
Lemma set_reg_map_Ok (rf : RegFile.t) (reg : LLReg) (vm vm' : ValueMap.t) :
  RegFile.reg_map rf reg = Ok vm ->
  exists rf', RegFile.set_reg_map rf reg vm' = Ok rf'
    /\ RegFile.reg_map rf' reg = Ok vm'
    /\ forall reg', reg' <> reg -> RegFile.reg_map rf' reg' = RegFile.reg_map rf reg'.
Proof.
  intros Hvm. apply reg_map_Ok in Hvm.
  pose proof (lookup_lt_Some _ _ _ Hvm) as Hlt.
  exists (RegFile.with_regs rf (rt reg) (<[ri reg := vm']> (RegFile.regs rf (rt reg)))).
  split_and!.
  - unfold RegFile.set_reg_map. by rewrite store_Ok.
  - apply reg_map_Ok. rewrite regs_with_regs_same.
    by apply list_lookup_insert_eq.
  - intros reg' Hne. unfold RegFile.reg_map.
    destruct (decide (rt reg' = rt reg)) as [Hrt|Hrt].
    + rewrite Hrt, regs_with_regs_same.
      unfold load. rewrite list_lookup_insert_ne; [done|].
      intros Hri. apply Hne. destruct reg, reg'. simpl in *. congruence.
    + by rewrite regs_with_regs_other.
Qed.

Lemma map_get_at (c : RegClass) (vm : ValueMap.t) (v : Facet.Value) (i : nat) :
  RegFile.map_at vsz c v = Ok i ->
  RegFile.map_get vsz c vm v = load (ValueMap.values vm) i.
Proof.
  unfold RegFile.map_at, RegFile.map_get, ValueMap.at_get. by intros ->.
Qed.

Lemma map_set_at (c : RegClass) (vm : ValueMap.t) (v : Facet.Value) (i : nat)
    (x : LLVMValue) :
  RegFile.map_at vsz c v = Ok i ->
  i < length (ValueMap.values vm) ->
  RegFile.map_set vsz c vm v x = Ok {| ValueMap.values := <[i := x]> (ValueMap.values vm) |}.
Proof.
  unfold RegFile.map_at, RegFile.map_set, ValueMap.at_set. intros -> Hi.
  simpl. by rewrite store_Ok.
Qed.

(** A slot that can be read can be written. *)
Lemma map_set_after_get (c : RegClass) (vm : ValueMap.t) (v : Facet.Value)
    (x y : LLVMValue) :
  RegFile.map_get vsz c vm v = Ok x ->
  exists vm', RegFile.map_set vsz c vm v y = Ok vm'.
Proof.
  unfold RegFile.map_get, ValueMap.at_get. intros Hget.
  destruct (ValueMap.at_ vsz (RegFile.class_facets vsz c) v) as [i| | |] eqn:Hat;
    try discriminate.
  simpl in Hget. apply load_Ok, lookup_lt_Some in Hget.
  eexists. by apply map_set_at.
Qed.

(** What [GetReg] returns is decided by the class and the value map of
    the register alone. *)
Lemma GetReg_returned (rf : RegFile.t) (reg : LLReg) (facet : Facet.Value) :
  returned (RegFile.GetReg vsz convert priority rf reg facet) =
  match RegFile.reg_map rf reg with
  | Ok vm =>
      match RegFile.map_get vsz (rt reg) vm facet with
      | Ok cur =>
          if decide (cur = nullptr)
          then RegFile.synthesize vsz convert priority (rt reg) vm facet
          else Ok cur
      | AssertFail => AssertFail
      | OutOfBounds => OutOfBounds
      | ConversionFailure => ConversionFailure
      end
  | AssertFail => AssertFail
  | OutOfBounds => OutOfBounds
  | ConversionFailure => ConversionFailure
  end.
Proof.
  unfold RegFile.GetReg.
  destruct (RegFile.reg_map rf reg) as [vm| | |] eqn:Hvm; try done. simpl.
  destruct (RegFile.map_get vsz (rt reg) vm facet) as [cur| | |] eqn:Hcur;
    try done. simpl.
  destruct (decide (cur = nullptr)) as [Hnull|Hnull]; [|done].
  destruct (RegFile.synthesize vsz convert priority (rt reg) vm facet)
    as [y| | |]; try done. simpl.
  destruct (map_set_after_get (rt reg) vm facet cur y Hcur) as [vm' ->]. simpl.
  destruct (set_reg_map_Ok rf reg vm vm' Hvm) as (rf' & -> & _). done.
Qed.

Lemma GetReg_returned_ext (rf1 rf2 : RegFile.t) (r1 r2 : LLReg) (facet : Facet.Value) :
  rt r1 = rt r2 ->
  RegFile.reg_map rf1 r1 = RegFile.reg_map rf2 r2 ->
  returned (RegFile.GetReg vsz convert priority rf1 r1 facet)
  = returned (RegFile.GetReg vsz convert priority rf2 r2 facet).
Proof. intros Hrt Hmap. rewrite !GetReg_returned. by rewrite Hrt, Hmap. Qed.

(** In a value map with the slot of [F] alone populated, the scan finds
    [F] wherever it stands among the candidates. *)
Lemma find_source_single (c : RegClass) (F : Facet.Value) (iF : nat)
    (V : LLVMValue) (cands : list Facet.Value) :
  RegFile.class_facets vsz c !! iF = Some F ->
  V <> nullptr ->
  F ∈ cands ->
  RegFile.find_source vsz c
    {| ValueMap.values :=
         <[iF := V]> (replicate (length (RegFile.class_facets vsz c)) nullptr) |}
    cands = Some (F, V).
Proof.
  intros HF HV.
  pose proof (class_facets_in_range vsz c) as Hr.
  pose proof (class_facets_NoDup vsz c) as Hnd.
  pose proof (lookup_lt_Some _ _ _ HF) as HiF.
  destruct (ValueMap_at_position vsz _ iF F Hr Hnd HF) as [_ HatF].
  induction cands as [|g rest IH]; intros Hin; [by apply elem_of_nil in Hin|].
  simpl. destruct (decide (g = F)) as [->|Hg].
  - rewrite (map_get_at c _ F iF HatF). simpl.
    unfold load. rewrite list_lookup_insert_eq by (by rewrite length_replicate).
    by rewrite decide_False.
  - apply elem_of_cons in Hin as [Hin|Hin]; [congruence|].
    specialize (IH Hin).
    destruct (RegFile.map_at vsz c g) as [ig| | |] eqn:Hat.
    + rewrite (map_get_at c _ g ig Hat). simpl.
      assert (Hgin : g ∈ RegFile.class_facets vsz c)
        by (apply (ValueMap_at_Ok_iff vsz _ g Hr); by exists ig).
      destruct (ValueMap_at_supported vsz _ g Hr Hgin) as (ig' & Hat' & Hig).
      unfold RegFile.map_at in Hat. rewrite Hat in Hat'. injection Hat' as <-.
      assert (ig <> iF) by (intros ->; congruence).
      unfold load. rewrite list_lookup_insert_ne by done.
      rewrite lookup_replicate_2 by (by eapply lookup_lt_Some).
      by rewrite decide_True.
    + unfold RegFile.map_get, ValueMap.at_get.
      unfold RegFile.map_at in Hat. by rewrite Hat.
    + unfold RegFile.map_get, ValueMap.at_get.
      unfold RegFile.map_at in Hat. by rewrite Hat.
    + unfold RegFile.map_get, ValueMap.at_get.
      unfold RegFile.map_at in Hat. by rewrite Hat.
Qed.

End RegFile_facts.

(** ** Claims about the register operations *)

(** C1. For every register [R] of the file, facet [F] of its class and
    value [V] (a value, not the empty slot's [nullptr]): [SetReg] with
    [clear_facets] succeeds; after it [GetReg] of [R] in [F] returns [V]
    and changes nothing; and for every other facet [G] of the class the
    slot of [G] is empty, and [GetReg] of [R] in [G] returns what the
    backend converts [V] from [F] to [G] into (or its failure), whatever
    the register held before the [SetReg].  The scan for a source covers
    every facet of the class. *)
Theorem SetReg_clear_then_GetReg
    (vsz : N)
    (convert : LLVMValue -> Facet.Value -> Facet.Value -> option LLVMValue)
    (priority : RegClass -> Facet.Value -> list Facet.Value)
    (rf : RegFile.t) (R : LLReg) (F : Facet.Value) (V : LLVMValue)
    (vm : ValueMap.t) :
  (forall c G H, H ∈ RegFile.class_facets vsz c -> H ∈ priority c G) ->
  RegFile.reg_map rf R = Ok vm ->
  F ∈ RegFile.class_facets vsz (rt R) ->
  V <> nullptr ->
  exists rf',
    RegFile.SetReg vsz rf R F V true = Ok rf'
    /\ RegFile.GetReg vsz convert priority rf' R F = Ok (V, rf')
    /\ (forall G, G ∈ RegFile.class_facets vsz (rt R) -> G <> F ->
          (exists vm', RegFile.reg_map rf' R = Ok vm'
                       /\ RegFile.map_get vsz (rt R) vm' G = Ok nullptr)
          /\ returned (RegFile.GetReg vsz convert priority rf' R G)
             = match convert V F G with
               | Some y => Ok y
               | None => ConversionFailure
               end).
Proof.
  intros Hcover Hvm HF HV.
  pose proof (class_facets_in_range vsz (rt R)) as Hr.
  pose proof (class_facets_NoDup vsz (rt R)) as Hnd.
  destruct (ValueMap_at_supported vsz _ F Hr HF) as (iF & HatF & HiF).
  pose proof (lookup_lt_Some _ _ _ HiF) as HltF.
  set (E := RegFile.class_facets vsz (rt R)) in *.
  set (vm1 := {| ValueMap.values := <[iF := V]> (replicate (length E) nullptr) |}).
  assert (Hset : RegFile.map_set vsz (rt R) (ValueMap.clear E vm) F V = Ok vm1).
  { apply map_set_at; [exact HatF|]. simpl. by rewrite length_replicate. }
  destruct (set_reg_map_Ok rf R vm vm1 Hvm) as (rf' & Hrf' & Hvm1 & _).
  assert (HgetF : RegFile.map_get vsz (rt R) vm1 F = Ok V).
  { rewrite (map_get_at vsz (rt R) vm1 F iF HatF). apply load_Ok. simpl.
    apply list_lookup_insert_eq. by rewrite length_replicate. }
  exists rf'. split_and!.
  - unfold RegFile.SetReg. rewrite Hvm. simpl. fold E. rewrite Hset. exact Hrf'.
  - unfold RegFile.GetReg. rewrite Hvm1. simpl. rewrite HgetF. simpl.
    by rewrite decide_False.
  - intros G HG HGF.
    destruct (ValueMap_at_supported vsz _ G Hr HG) as (iG & HatG & HiG).
    assert (HgetG : RegFile.map_get vsz (rt R) vm1 G = Ok nullptr).
    { rewrite (map_get_at vsz (rt R) vm1 G iG HatG). apply load_Ok. simpl.
      rewrite list_lookup_insert_ne by (intros ->; congruence).
      apply lookup_replicate_2. by eapply lookup_lt_Some. }
    split; [by exists vm1|].
    rewrite GetReg_returned, Hvm1, HgetG.
    rewrite decide_True by done.
    unfold RegFile.synthesize, vm1, E.
    rewrite (find_source_single vsz (rt R) F iF V (priority (rt R) G) HiF HV);
      [done|].
    by apply Hcover.
Qed.

Lemma SetReg_clear_then_GetReg_witness :
  exists rf',
    RegFile.SetReg 128
      {| RegFile.llvm_block := 1%N;
         RegFile.regs_gp := [ {| ValueMap.values := [11; 12; 13; 14; 15; 16]%N |} ];
         RegFile.regs_sse := [];
         RegFile.reg_ip := 2%N;
         RegFile.flags := [0; 0; 0; 0; 0; 0]%N;
         RegFile.flag_cache :=
           {| FlagCache.valid := false; FlagCache.lhs := 0%N; FlagCache.rhs := 0%N |} |}
      (mkLLReg GP 0) Facet.I64 77%N true = Ok rf'
    /\ RegFile.GetReg 128 (fun x _ _ => Some (x + 1000)%N)
         (fun c _ => RegFile.class_facets 128 c) rf' (mkLLReg GP 0) Facet.I64
       = Ok (77%N, rf').
Proof.
  destruct (SetReg_clear_then_GetReg 128 (fun x _ _ => Some (x + 1000)%N)
              (fun c _ => RegFile.class_facets 128 c)
              {| RegFile.llvm_block := 1%N;
                 RegFile.regs_gp := [ {| ValueMap.values := [11; 12; 13; 14; 15; 16]%N |} ];
                 RegFile.regs_sse := [];
                 RegFile.reg_ip := 2%N;
                 RegFile.flags := [0; 0; 0; 0; 0; 0]%N;
                 RegFile.flag_cache :=
                   {| FlagCache.valid := false; FlagCache.lhs := 0%N;
                      FlagCache.rhs := 0%N |} |}
              (mkLLReg GP 0) Facet.I64 77%N
              {| ValueMap.values := [11; 12; 13; 14; 15; 16]%N |})
    as (rf' & Hset & Hget & _).
  - intros c G H HH. exact HH.
  - reflexivity.
  - apply (bool_decide_unpack _). vm_compute. exact I.
  - discriminate.
  - exists rf'. split; [exact Hset | exact Hget].
Defined.

(** C5. [Rename] copies the whole slot state of [reg_src] to [reg_dst] by
    value: after it [GetReg] of [reg_dst] returns in every facet what
    [GetReg] of [reg_src] returned before it, the value map of [reg_dst] is
    the one [reg_src] had, and that of [reg_src] is unchanged.  When the
    two registers are not one and the same, a later [SetReg] on [reg_dst]
    with [clear_facets] leaves the value map of [reg_src], and so every
    result of [GetReg] on it, as they were. *)
Theorem Rename_value_copy
    (vsz : N)
    (convert : LLVMValue -> Facet.Value -> Facet.Value -> option LLVMValue)
    (priority : RegClass -> Facet.Value -> list Facet.Value)
    (rf rf' : RegFile.t) (reg_dst reg_src : LLReg) :
  RegFile.Rename rf reg_dst reg_src = Ok rf' ->
  (forall F, returned (RegFile.GetReg vsz convert priority rf' reg_dst F)
             = returned (RegFile.GetReg vsz convert priority rf reg_src F))
  /\ RegFile.reg_map rf' reg_dst = RegFile.reg_map rf reg_src
  /\ RegFile.reg_map rf' reg_src = RegFile.reg_map rf reg_src
  /\ (reg_dst <> reg_src ->
      forall F V2 rf'',
        RegFile.SetReg vsz rf' reg_dst F V2 true = Ok rf'' ->
        RegFile.reg_map rf'' reg_src = RegFile.reg_map rf' reg_src
        /\ (forall G, returned (RegFile.GetReg vsz convert priority rf'' reg_src G)
                      = returned (RegFile.GetReg vsz convert priority rf' reg_src G))).
Proof.
  unfold RegFile.Rename. intros Hren.
  destruct (decide (rt reg_dst = rt reg_src)) as [Hrt|]; [|discriminate].
  destruct (RegFile.reg_map rf reg_src) as [vm| | |] eqn:Hsrc; try discriminate.
  simpl in Hren.
  assert (Hdst : exists vmd, RegFile.reg_map rf reg_dst = Ok vmd).
  { unfold RegFile.set_reg_map, store in Hren.
    destruct (decide (ri reg_dst < length (RegFile.regs rf (rt reg_dst))))
      as [Hlt|]; [|discriminate].
    destruct (load_lt _ _ Hlt) as (vmd & Hvmd & _). by exists vmd. }
  destruct Hdst as [vmd Hdst].
  destruct (set_reg_map_Ok rf reg_dst vmd vm Hdst) as (rf1 & Hrf1 & Hsame & Hother).
  rewrite Hrf1 in Hren. injection Hren as <-.
  assert (Hsrc' : RegFile.reg_map rf1 reg_src = Ok vm).
  { destruct (decide (reg_src = reg_dst)) as [->|Hne]; [done|].
    by rewrite Hother. }
  split_and!.
  - intros F. apply GetReg_returned_ext; [done|]. by rewrite Hsame.
  - done.
  - done.
  - intros Hne F V2 rf'' Hset.
    unfold RegFile.SetReg in Hset. rewrite Hsame in Hset. simpl in Hset.
    destruct (RegFile.map_set vsz (rt reg_dst) _ F V2) as [vm2| | |];
      try discriminate.
    simpl in Hset.
    destruct (set_reg_map_Ok rf1 reg_dst vm vm2 Hsame) as (rf2 & Hrf2 & _ & Hother2).
    rewrite Hrf2 in Hset. injection Hset as <-.
    assert (Hkeep : RegFile.reg_map rf2 reg_src = RegFile.reg_map rf1 reg_src)
      by (apply Hother2; congruence).
    split; [done|].
    intros G. by apply GetReg_returned_ext.
Qed.

Lemma Rename_value_copy_witness :
  exists rf' rf'',
    RegFile.Rename
      {| RegFile.llvm_block := 1%N;
         RegFile.regs_gp := [ {| ValueMap.values := [11; 0; 13; 0; 0; 16]%N |};
                              {| ValueMap.values := [21; 22; 0; 0; 0; 0]%N |} ];
         RegFile.regs_sse := [];
         RegFile.reg_ip := 2%N;
         RegFile.flags := [0; 0; 0; 0; 0; 0]%N;
         RegFile.flag_cache :=
           {| FlagCache.valid := false; FlagCache.lhs := 0%N; FlagCache.rhs := 0%N |} |}
      (mkLLReg GP 1) (mkLLReg GP 0) = Ok rf'
    /\ RegFile.SetReg 128 rf' (mkLLReg GP 1) Facet.I32 99%N true = Ok rf''
    /\ RegFile.reg_map rf'' (mkLLReg GP 0) = RegFile.reg_map rf' (mkLLReg GP 0).
Proof.
  eexists. eexists.
  split; [reflexivity|]. split; [reflexivity|].
  apply (Rename_value_copy 128 (fun x _ _ => Some (x + 1000)%N)
           (fun c _ => RegFile.class_facets 128 c)
           {| RegFile.llvm_block := 1%N;
              RegFile.regs_gp := [ {| ValueMap.values := [11; 0; 13; 0; 0; 16]%N |};
                                   {| ValueMap.values := [21; 22; 0; 0; 0; 0]%N |} ];
              RegFile.regs_sse := [];
              RegFile.reg_ip := 2%N;
              RegFile.flags := [0; 0; 0; 0; 0; 0]%N;
              RegFile.flag_cache :=
                {| FlagCache.valid := false; FlagCache.lhs := 0%N;
                   FlagCache.rhs := 0%N |} |}
           _ (mkLLReg GP 1) (mkLLReg GP 0) eq_refl)
    with (F := Facet.I32) (V2 := 99%N).
  - discriminate.
  - reflexivity.
Defined.

(** ** Remarks on the side conditions *)

(** [MAX] counts the enumerators and is no facet: [at(MAX)] reads the
    backward array one past its end. *)
Remark at_MAX_out_of_bounds :
  ValueMap.at_ 128 ValueMapGp Facet.MAX = OutOfBounds.
Proof. reflexivity. Qed.

(** A facet written twice in a pack gets the slot of its last position. *)
Remark repeated_facet_last_position :
  ValueMap.at_ 128 [Facet.I64; Facet.I64] Facet.I64 = Ok 1.
Proof. reflexivity. Qed.

(** Storing [nullptr] stores the mark of an empty slot: the register then
    has no populated facet to read. *)
Remark SetReg_nullptr_is_empty :
  (rf' ← RegFile.SetReg 128
           {| RegFile.llvm_block := 1%N;
              RegFile.regs_gp := [ {| ValueMap.values := [11; 12; 13; 14; 15; 16]%N |} ];
              RegFile.regs_sse := [];
              RegFile.reg_ip := 2%N;
              RegFile.flags := [0; 0; 0; 0; 0; 0]%N;
              RegFile.flag_cache :=
                {| FlagCache.valid := false; FlagCache.lhs := 0%N;
                   FlagCache.rhs := 0%N |} |}
           (mkLLReg GP 0) Facet.I64 nullptr true;
   returned (RegFile.GetReg 128 (fun x _ _ => Some (x + 1000)%N)
               (fun c _ => RegFile.class_facets 128 c) rf' (mkLLReg GP 0) Facet.I64))
  = AssertFail.
Proof. reflexivity. Qed.

(** Renaming a register to itself changes nothing, and a later [SetReg] on
    it is of course seen by a later [GetReg] on it. *)
Remark Rename_same_register :
  (rf' ← RegFile.Rename
           {| RegFile.llvm_block := 1%N;
              RegFile.regs_gp := [ {| ValueMap.values := [11; 12; 13; 14; 15; 16]%N |} ];
              RegFile.regs_sse := [];
              RegFile.reg_ip := 2%N;
              RegFile.flags := [0; 0; 0; 0; 0; 0]%N;
              RegFile.flag_cache :=
                {| FlagCache.valid := false; FlagCache.lhs := 0%N;
                   FlagCache.rhs := 0%N |} |}
           (mkLLReg GP 0) (mkLLReg GP 0);
   rf'' ← RegFile.SetReg 128 rf' (mkLLReg GP 0) Facet.I64 77%N true;
   Ok (returned (RegFile.GetReg 128 (fun x _ _ => Some (x + 1000)%N)
                   (fun c _ => RegFile.class_facets 128 c) rf' (mkLLReg GP 0) Facet.I64),
       returned (RegFile.GetReg 128 (fun x _ _ => Some (x + 1000)%N)
                   (fun c _ => RegFile.class_facets 128 c) rf'' (mkLLReg GP 0) Facet.I64)))
  = Ok (Ok 11%N, Ok 77%N).
Proof. reflexivity. Qed.

(** * Further properties of the value map and the enumeration *)

(** ** Repeated facets in a pack *)

Section LookupTable_last.
Context {T : Type}.
Variable to_int : T -> nat.
Variable zero : T.

(** The entry some element writes holds one plus the last position of an
    element with that integer value. *)
Lemma fill_b_last (il : list T) (i : nat) (tb : LookupTable.t T) (j : nat) :
  j < length (LookupTable.b tb) ->
  (exists e, e ∈ il /\ to_int e = j) ->
  exists k e, il !! k = Some e /\ to_int e = j
    /\ (forall k' e', k < k' -> il !! k' = Some e' -> to_int e' <> j)
    /\ LookupTable.b (LookupTable.fill to_int il i tb) !! j = Some (1 + (i + k)).
Proof.
  revert i tb. induction il as [|x il IH] using rev_ind; intros i tb Hj [e [He Hej]].
  - by apply elem_of_nil in He.
  - rewrite fill_snoc. simpl.
    destruct (decide (to_int x = j)) as [Hx|Hx].
    + exists (length il), x. split_and!; [|done| |].
      * by rewrite lookup_app_r, Nat.sub_diag by lia.
      * intros k' e' Hlt Hk'. apply lookup_lt_Some in Hk'.
        rewrite length_app in Hk'. simpl in Hk'. lia.
      * rewrite Hx. apply list_lookup_insert_eq. by rewrite fill_b_length.
    + apply elem_of_app in He as [He|He];
        [|apply list_elem_of_singleton in He; congruence].
      destruct (IH i tb Hj) as (k & e' & Hk & He' & Hlast & Hb); [by exists e|].
      exists k, e'. split_and!; [|done| |].
      * by apply lookup_app_l_Some.
      * intros k' e'' Hlt Hk'.
        destruct (decide (k' < length il)) as [Hin|Hout].
        -- rewrite lookup_app_l in Hk' by done. by eapply Hlast.
        -- rewrite lookup_app_r in Hk' by lia.
           destruct (k' - length il) as [|n]; simpl in Hk'; [|done].
           by injection Hk' as <-.
      * by rewrite list_lookup_insert_ne.
Qed.
End LookupTable_last.

(** ** Slots and facets *)

Section ValueMap_slots.
Variable vsz : N.
Variable E : list Facet.Value.
Hypothesis Hrange : ValueMap.in_range vsz E.

(** A slot [at] returns is a position of the facet in the pack. *)
Lemma at_Ok_lookup (v : Facet.Value) (i : nat) :
  ValueMap.at_ vsz E v = Ok i -> E !! i = Some v.
Proof using Hrange.
  intros Hat.
  assert (Hv : v ∈ E) by (apply (ValueMap_at_Ok_iff vsz E v Hrange); by exists i).
  destruct (ValueMap_at_supported vsz E v Hrange Hv) as (i' & Hat' & Hi).
  rewrite Hat in Hat'. by injection Hat' as <-.
Qed.

(** X4. Whenever [at(v)] returns a slot, the slot is inside the [values]
    array and [facets()] has [v] at that position: [facets()[at(v)]] is
    [v], with or without repeated facets in the pack. *)
Theorem at_slot_is_facet_position (v : Facet.Value) (i : nat) :
  ValueMap.at_ vsz E v = Ok i ->
  i < length E /\ ValueMap.facets vsz E !! i = Some v.
Proof using Hrange.
  intros Hat. apply at_Ok_lookup in Hat.
  rewrite ValueMap_facets_pack. split; [by eapply lookup_lt_Some | done].
Qed.

(** X5. With a facet written more than once in the pack, [at] designates
    the slot of its last position: the slot at position [i] of the pack is
    the one [at] returns for the facet there exactly when the facet does
    not come again after [i]. *)
Theorem at_designates_last_position (i : nat) (e : Facet.Value) :
  E !! i = Some e ->
  (ValueMap.at_ vsz E e = Ok i <-> forall j, i < j -> E !! j <> Some e).
Proof using Hrange.
  intros Hi.
  assert (He : e ∈ E) by (by eapply list_elem_of_lookup_2).
  pose proof (in_range_elem vsz E e Hrange He) as Hlt.
  destruct (fill_b_last (Facet.to_int vsz) E 0
              {| LookupTable.f := replicate (length E) Facet.I64;
                 LookupTable.b := replicate (Facet.to_int vsz Facet.MAX) 0 |}
              (Facet.to_int vsz e))
    as (k & e' & Hk & He' & Hlast & Hb).
  { simpl. by rewrite length_replicate. }
  { by exists e. }
  assert (e = e') as <- by (eapply to_int_inj; [exact Hlt|by symmetry]).
  assert (Hat : ValueMap.at_ vsz E e = Ok k).
  { unfold ValueMap.at_, ValueMap.table, ValueMap.static_cast_int,
      LookupTable.ctor, load. by rewrite Hb. }
  split.
  - intros Hati j Hj Hje. rewrite Hat in Hati. injection Hati as ->.
    by apply (Hlast j e Hj Hje).
  - intros Hnone. rewrite Hat. f_equal.
    destruct (Nat.lt_trichotomy k i) as [Hki | [-> | Hik]]; [|done|].
    + exfalso. by apply (Hlast i e Hki Hi).
    + exfalso. by apply (Hnone k Hik).
Qed.

(** X2. Writing [x] through [at(v)], for a facet of the pack, succeeds,
    keeps the array at its [sizeof...(E)] slots, and a read through
    [at(v)] then returns [x]. *)
Theorem at_write_then_read (vm : ValueMap.t) (v : Facet.Value) (x : LLVMValue) :
  v ∈ E ->
  length (ValueMap.values vm) = length E ->
  exists vm', ValueMap.at_set vsz E vm v x = Ok vm'
    /\ length (ValueMap.values vm') = length E
    /\ ValueMap.at_get vsz E vm' v = Ok x.
Proof using Hrange.
  intros Hv Hlen.
  destruct (ValueMap_at_supported vsz E v Hrange Hv) as (i & Hat & Hi).
  pose proof (lookup_lt_Some _ _ _ Hi) as Hlt.
  exists {| ValueMap.values := <[i := x]> (ValueMap.values vm) |}.
  split_and!.
  - unfold ValueMap.at_set. rewrite Hat. simpl. by rewrite store_Ok by lia.
  - simpl. by rewrite length_insert.
  - unfold ValueMap.at_get. rewrite Hat. simpl. apply load_Ok. simpl.
    apply list_lookup_insert_eq. lia.
Qed.

(** X3. A write through [at(v)] changes the slot of [v] alone: a read
    through [at(w)] for any other facet [w] gives after the write what it
    gave before, be it a value or a failure. *)
Theorem at_write_frame (vm vm' : ValueMap.t) (v w : Facet.Value) (x : LLVMValue) :
  ValueMap.at_set vsz E vm v x = Ok vm' ->
  w <> v ->
  ValueMap.at_get vsz E vm' w = ValueMap.at_get vsz E vm w.
Proof using Hrange.
  unfold ValueMap.at_set, ValueMap.at_get. intros Hset Hne.
  destruct (ValueMap.at_ vsz E v) as [i| | |] eqn:Hv; try discriminate.
  simpl in Hset. unfold store in Hset.
  destruct (decide (i < length (ValueMap.values vm))); [|discriminate].
  simpl in Hset. injection Hset as <-.
  destruct (ValueMap.at_ vsz E w) as [j| | |] eqn:Hw; try done.
  simpl. unfold load. rewrite list_lookup_insert_ne; [done|].
  intros ->.
  pose proof (at_Ok_lookup v j Hv) as Hfv.
  pose proof (at_Ok_lookup w j Hw) as Hfw.
  congruence.
Qed.
End ValueMap_slots.

(** X1. After [clear()] the array has its [sizeof...(E)] slots, whatever
    it was before, every facet of the pack reads [nullptr], and no read
    through [at] returns anything else. *)
Theorem clear_empties_every_slot (vsz : N) (E : list Facet.Value)
    (vm : ValueMap.t) :
  ValueMap.in_range vsz E ->
  length (ValueMap.values (ValueMap.clear E vm)) = length E
  /\ (forall v, v ∈ E -> ValueMap.at_get vsz E (ValueMap.clear E vm) v = Ok nullptr)
  /\ (forall v x, ValueMap.at_get vsz E (ValueMap.clear E vm) v = Ok x -> x = nullptr).
Proof.
  intros Hr. split_and!.
  - simpl. by rewrite length_replicate.
  - intros v Hv.
    destruct (ValueMap_at_supported vsz E v Hr Hv) as (i & Hat & Hi).
    unfold ValueMap.at_get. rewrite Hat. simpl. apply load_Ok. simpl.
    apply lookup_replicate_2. by eapply lookup_lt_Some.
  - intros v x. unfold ValueMap.at_get.
    destruct (ValueMap.at_ vsz E v) as [i| | |]; try discriminate.
    simpl. intros Hx. apply load_Ok in Hx. simpl in Hx.
    by apply lookup_replicate in Hx as [-> _].
Qed.

(** X6. [clear()] followed by a write of [x] through [at(v)] leaves [v]
    the one facet with a value: [v] reads [x] and every other facet of the
    pack reads [nullptr], whatever the map held before. *)
Theorem clear_then_write_single_facet (vsz : N) (E : list Facet.Value)
    (vm : ValueMap.t) (v : Facet.Value) (x : LLVMValue) :
  ValueMap.in_range vsz E ->
  v ∈ E ->
  exists vm', ValueMap.at_set vsz E (ValueMap.clear E vm) v x = Ok vm'
    /\ ValueMap.at_get vsz E vm' v = Ok x
    /\ (forall w, w ∈ E -> w <> v -> ValueMap.at_get vsz E vm' w = Ok nullptr).
Proof.
  intros Hr Hv.
  destruct (ValueMap_at_supported vsz E v Hr Hv) as (i & Hat & Hi).
  pose proof (lookup_lt_Some _ _ _ Hi) as Hlt.
  exists {| ValueMap.values := <[i := x]> (replicate (length E) nullptr) |}.
  split_and!.
  - unfold ValueMap.at_set. rewrite Hat. simpl.
    by rewrite store_Ok by (by rewrite length_replicate).
  - unfold ValueMap.at_get. rewrite Hat. simpl. apply load_Ok. simpl.
    apply list_lookup_insert_eq. by rewrite length_replicate.
  - intros w Hw Hne.
    destruct (ValueMap_at_supported vsz E w Hr Hw) as (j & Hatw & Hj).
    unfold ValueMap.at_get. rewrite Hatw. simpl. apply load_Ok. simpl.
    rewrite list_lookup_insert_ne by (intros ->; congruence).
    apply lookup_replicate_2. by eapply lookup_lt_Some.
Qed.

(** X9. The assertion of [at] does not guard the table read: for an
    enumerator whose value is not below [MAX] ([MAX] itself, or [I256]
    where it is not declared) [at] indexes the backward array outside its
    bounds, for every pack. *)
Theorem at_beyond_MAX_out_of_bounds (vsz : N) (E : list Facet.Value)
    (v : Facet.Value) :
  Facet.to_int vsz Facet.MAX <= Facet.to_int vsz v ->
  ValueMap.at_ vsz E v = OutOfBounds
  /\ (forall vm, ValueMap.at_get vsz E vm v = OutOfBounds)
  /\ (forall vm x, ValueMap.at_set vsz E vm v x = OutOfBounds).
Proof.
  intros Hge.
  assert (Hat : ValueMap.at_ vsz E v = OutOfBounds).
  { unfold ValueMap.at_, ValueMap.static_cast_int, load.
    rewrite (proj2 (lookup_ge_None _ _)); [done|].
    by rewrite ValueMap_b_length. }
  split_and!; [done| |].
  - intros vm. unfold ValueMap.at_get. by rewrite Hat.
  - intros vm x. unfold ValueMap.at_set. by rewrite Hat.
Qed.

Lemma at_slot_is_facet_position_witness :
  3 < length ValueMapGp /\ ValueMap.facets 128 ValueMapGp !! 3 = Some Facet.I8.
Proof.
  apply (at_slot_is_facet_position 128 ValueMapGp).
  - repeat constructor; vm_compute; lia.
  - reflexivity.
Defined.

Lemma at_designates_last_position_witness :
  ValueMap.at_ 128 [Facet.I64; Facet.I32; Facet.I64] Facet.I64 = Ok 2.
Proof.
  apply (at_designates_last_position 128 [Facet.I64; Facet.I32; Facet.I64]).
  - repeat constructor; vm_compute; lia.
  - reflexivity.
  - intros j Hj Hje. apply lookup_lt_Some in Hje. simpl in Hje. lia.
Defined.

Lemma at_write_then_read_witness :
  exists vm',
    ValueMap.at_set 128 ValueMapGp
      {| ValueMap.values := [11; 12; 13; 14; 15; 16]%N |} Facet.I16 77%N = Ok vm'
    /\ length (ValueMap.values vm') = length ValueMapGp
    /\ ValueMap.at_get 128 ValueMapGp vm' Facet.I16 = Ok 77%N.
Proof.
  apply (at_write_then_read 128 ValueMapGp).
  - repeat constructor; vm_compute; lia.
  - apply (bool_decide_unpack _). vm_compute. exact I.
  - reflexivity.
Defined.

Lemma at_write_frame_witness :
  ValueMap.at_get 128 ValueMapGp
    {| ValueMap.values := [11; 12; 77; 14; 15; 16]%N |} Facet.PTR
  = ValueMap.at_get 128 ValueMapGp
      {| ValueMap.values := [11; 12; 13; 14; 15; 16]%N |} Facet.PTR.
Proof.
  apply (at_write_frame 128 ValueMapGp) with (v := Facet.I16) (x := 77%N).
  - repeat constructor; vm_compute; lia.
  - reflexivity.
  - discriminate.
Defined.

Lemma clear_empties_every_slot_witness :
  ValueMap.at_get 128 ValueMapGp
    (ValueMap.clear ValueMapGp {| ValueMap.values := [11; 12; 13; 14; 15; 16]%N |})
    Facet.I8H = Ok nullptr.
Proof.
  destruct (clear_empties_every_slot 128 ValueMapGp
              {| ValueMap.values := [11; 12; 13; 14; 15; 16]%N |})
    as (_ & Hnull & _).
  - repeat constructor; vm_compute; lia.
  - apply Hnull. apply (bool_decide_unpack _). vm_compute. exact I.
Defined.

Lemma clear_then_write_single_facet_witness :
  exists vm',
    ValueMap.at_set 256 (ValueMapSse 256)
      (ValueMap.clear (ValueMapSse 256) {| ValueMap.values := [] |})
      Facet.V4F32 5%N = Ok vm'
    /\ ValueMap.at_get 256 (ValueMapSse 256) vm' Facet.V4F32 = Ok 5%N
    /\ (forall w, w ∈ ValueMapSse 256 -> w <> Facet.V4F32 ->
          ValueMap.at_get 256 (ValueMapSse 256) vm' w = Ok nullptr).
Proof.
  apply (clear_then_write_single_facet 256 (ValueMapSse 256)).
  - repeat constructor; vm_compute; lia.
  - apply (bool_decide_unpack _). vm_compute. exact I.
Defined.

Lemma at_beyond_MAX_out_of_bounds_witness :
  ValueMap.at_ 128 (ValueMapSse 128) Facet.I256 = OutOfBounds.
Proof.
  apply (at_beyond_MAX_out_of_bounds 128 (ValueMapSse 128) Facet.I256).
  vm_compute. lia.
Defined.

(** ** The enumeration and the two packs *)

(** X11. The enumerators have distinct integer values: [I64] is 0, [MAX]
    is their number (35, or 36 where [I256] is declared), two enumerators
    with one value up to [MAX] are one, and the pseudo-facets are the
    enumerators with the seven values just below [MAX]. *)
Theorem enumerator_values (vsz : N) :
  Facet.to_int vsz Facet.I64 = 0
  /\ Facet.to_int vsz Facet.MAX = (if (256 <=? vsz)%N then 36 else 35)
  /\ (forall v w, Facet.to_int vsz v <= Facet.to_int vsz Facet.MAX ->
        Facet.to_int vsz v = Facet.to_int vsz w -> v = w)
  /\ (forall P, P ∈ Facet.pseudo
        <-> Facet.to_int vsz Facet.MAX - 7 <= Facet.to_int vsz P
            /\ Facet.to_int vsz P < Facet.to_int vsz Facet.MAX).
Proof.
  split_and!.
  - done.
  - unfold Facet.to_int, Facet.enumerators. by destruct (256 <=? vsz)%N.
  - intros v w Hle Heq.
    pose proof (enumerators_MAX vsz) as HM.
    assert (Hv : Facet.enumerators vsz !! Facet.to_int vsz v = Some v)
      by (apply index_of_lookup; fold (Facet.to_int vsz v); lia).
    assert (Hw : Facet.enumerators vsz !! Facet.to_int vsz w = Some w)
      by (apply index_of_lookup; fold (Facet.to_int vsz w); lia).
    rewrite Heq in Hv. congruence.
  - intros P. rewrite to_int_norm.
    destruct (norm_cases vsz) as [-> | ->]; destruct P;
      apply (bool_decide_unpack _); vm_compute; exact I.
Qed.

Lemma enumerator_values_witness :
  Facet.I8H = Facet.I8H /\ Facet.VI32 ∈ Facet.pseudo.
Proof.
  destruct (enumerator_values 128) as (_ & _ & Hinj & Hpseudo).
  split.
  - apply Hinj; [vm_compute; lia | reflexivity].
  - apply Hpseudo. vm_compute. lia.
Defined.

(** X7. The vector class supports [I128], the twenty-five scalar and
    per-element facets of its pack, and [I256] exactly when the vector
    registers are at least 256 bits wide; [I128] is its first slot. *)
Theorem ValueMapSse_facets (vsz : N) :
  length (ValueMap.facets vsz (ValueMapSse vsz))
    = (if (256 <=? vsz)%N then 27 else 26)
  /\ ValueMap.at_ vsz (ValueMapSse vsz) Facet.I128 = Ok 0
  /\ (forall v, (exists i, ValueMap.at_ vsz (ValueMapSse vsz) v = Ok i)
        <-> v ∈ [ Facet.I128;
                  Facet.I8; Facet.V1I8; Facet.V2I8; Facet.V4I8; Facet.V8I8;
                  Facet.V16I8;
                  Facet.I16; Facet.V1I16; Facet.V2I16; Facet.V4I16; Facet.V8I16;
                  Facet.I32; Facet.V1I32; Facet.V2I32; Facet.V4I32;
                  Facet.I64; Facet.V1I64; Facet.V2I64;
                  Facet.F32; Facet.V1F32; Facet.V2F32; Facet.V4F32;
                  Facet.F64; Facet.V1F64; Facet.V2F64 ]
            \/ (v = Facet.I256 /\ (256 <= vsz)%N)).
Proof.
  pose proof (class_facets_in_range vsz Vec) as Hr.
  pose proof (class_facets_NoDup vsz Vec) as Hnd. simpl in Hr, Hnd.
  split_and!.
  - rewrite ValueMap_facets_pack. unfold ValueMapSse.
    by destruct (256 <=? vsz)%N.
  - apply (ValueMap_at_position vsz _ 0 Facet.I128 Hr Hnd). done.
  - intros v. rewrite (ValueMap_at_Ok_iff vsz _ v Hr). unfold ValueMapSse.
    match goal with |- context [_ ++ _ ++ ?L] => set (l := L) end.
    destruct (256 <=? vsz)%N eqn:Hc;
      [apply N.leb_le in Hc | apply N.leb_gt in Hc];
      rewrite !elem_of_app, !elem_of_cons, !elem_of_nil;
      intuition (try lia; try discriminate).
Qed.

(** X8. The facets below [MAX] split in two: a facet is a pseudo-facet
    exactly when neither register class supports it.  The two classes
    share the four integer facets [I64], [I32], [I16] and [I8] and no
    other. *)
Theorem facets_partition (vsz : N) (v : Facet.Value) :
  (Facet.to_int vsz v < Facet.to_int vsz Facet.MAX ->
     (v ∈ Facet.pseudo <-> (v ∉ ValueMapGp) /\ (v ∉ ValueMapSse vsz)))
  /\ (v ∈ ValueMapGp /\ v ∈ ValueMapSse vsz
      <-> v ∈ [Facet.I64; Facet.I32; Facet.I16; Facet.I8]).
Proof.
  rewrite to_int_norm, ValueMapSse_norm.
  destruct (norm_cases vsz) as [-> | ->]; destruct v;
    (split; apply (bool_decide_unpack _); vm_compute; exact I).
Qed.

Lemma facets_partition_witness :
  Facet.PTR ∈ Facet.pseudo <-> (Facet.PTR ∉ ValueMapGp) /\ (Facet.PTR ∉ ValueMapSse 128).
Proof.
  destruct (facets_partition 128 Facet.PTR) as [H _].
  apply H. vm_compute. lia.
Defined.

(** X10. [IVEC] is declared for vector registers of 128 and of 256 bits
    and for no other size; where it is declared it names a facet the
    vector class supports, the full-width integer one. *)
Theorem IVEC_is_vector_facet (vsz : N) :
  (Facet.IVEC vsz = None <-> vsz <> 128%N /\ vsz <> 256%N)
  /\ (forall v, Facet.IVEC vsz = Some v ->
        v ∈ ValueMapSse vsz
        /\ (v = if (256 <=? vsz)%N then Facet.I256 else Facet.I128)
        /\ exists i, ValueMap.at_ vsz (ValueMapSse vsz) v = Ok i).
Proof.
  unfold Facet.IVEC.
  destruct (vsz =? 128)%N eqn:H128; [apply N.eqb_eq in H128; subst|];
    [|destruct (vsz =? 256)%N eqn:H256; [apply N.eqb_eq in H256; subst|]].
  - split; [split; [done|by intros [? _]]|].
    intros v [= <-]. split_and!; [|done|by exists 0].
    apply (bool_decide_unpack _). vm_compute. exact I.
  - split; [split; [done|by intros [_ ?]]|].
    intros v [= <-]. split_and!; [|done|by exists 1].
    apply (bool_decide_unpack _). vm_compute. exact I.
  - apply N.eqb_neq in H128, H256. split; [done|]. intros v [=].
Qed.

Lemma IVEC_is_vector_facet_witness :
  Facet.I256 ∈ ValueMapSse 256.
Proof.
  destruct (IVEC_is_vector_facet 256) as [_ H].
  destruct (H Facet.I256) as (Hin & _); [reflexivity | exact Hin].
Defined.
